(** * Pebble's in-memory store ([db/memorystore.go]): a shallow embedding

    The Go type [MemoryStore] keeps every ACME object of the test server in
    maps from strings to pointers.  The embedding keeps that shape: the
    store is a record of [gmap]s whose values are locations, and the objects
    the locations point to live in a separate heap, so that two indices that
    hold the same pointer really share one mutable object.

    Locks are not modelled: every operation is embedded with its sequential
    meaning, that is, what it does between taking and releasing the store
    lock.  A call returns, panics, or (for the one unbounded loop, in
    [AddAccount]) exhausts the budget of draws it was given. *)

From Stdlib Require Import ZArith String Ascii List HexadecimalString.
From stdpp Require Import gmap strings list fin_maps relations.

Local Open Scope string_scope.
Local Open Scope list_scope.

(** ** Results of Go calls *)

(** A Go pointer: a location in the heap of the pointed-to type.  The nil
    pointer is any location the heap does not hold: comparing it with nil
    succeeds and dereferencing it is a run-time panic. *)
Definition loc := nat.

(** One constructor for each [errors.New], [fmt.Errorf] and error struct of
    the file, named after the place that builds it. *)
Inductive error : Type :=
  | ExistingAccountError (MatchingAccount : loc)
  | ErrNoSerialProvided
  | ErrNoOrderForCertificate (inner : error)
  | ErrAccountDoesNotExist (id : string)
  | ErrAccountNilKey
  | ErrAccountKeyExists
  | ErrOrderEmptyID
  | ErrOrderExists (id : string)
  | ErrOrderNoCertificateObject
  | ErrOrderSerialNotFound
  | ErrAuthzEmptyID
  | ErrAuthzExists (id : string)
  | ErrChallengeEmptyID
  | ErrChallengeExists (id : string)
  | ErrCertEmptyID
  | ErrCertExists (id : string)
  | ErrCertExistsRevoked (id : string)
  | ErrNilKeyID
  | ErrEABEmpty
  | ErrEABDecode (key : string) (inner : error)
  | ErrEABPresent (keyID : string)
  | ErrBlockedDomainEmpty
  | ErrCertSerialNotFound (serial : Z)
  | ErrExternal (msg : string).

(** The kinds of failure the design distinguishes. *)
Inductive error_kind : Type :=
  | Validation | Conflict | NotFound | KeyConflict | DecodeError
  | EncodingError | Internal.

Definition kind_of (e : error) : error_kind :=
  match e with
  | ExistingAccountError _ => KeyConflict
  | ErrNoSerialProvided | ErrNoOrderForCertificate _ => Internal
  | ErrAccountDoesNotExist _ | ErrOrderSerialNotFound
  | ErrCertSerialNotFound _ => NotFound
  | ErrAccountNilKey | ErrOrderEmptyID | ErrOrderNoCertificateObject
  | ErrAuthzEmptyID | ErrChallengeEmptyID | ErrCertEmptyID | ErrEABEmpty
  | ErrBlockedDomainEmpty => Validation
  | ErrAccountKeyExists | ErrOrderExists _ | ErrAuthzExists _
  | ErrChallengeExists _ | ErrCertExists _ | ErrCertExistsRevoked _
  | ErrEABPresent _ => Conflict
  | ErrNilKeyID | ErrExternal _ => EncodingError
  | ErrEABDecode _ _ => DecodeError
  end.

(** A Go result [(v, err)]: either the value with a nil error, or the
    error. *)
Inductive result (A : Type) : Type :=
  | Ok (a : A)
  | Err (e : error).
Arguments Ok {A} a.
Arguments Err {A} e.

(** What a call does to a state of type [S]: it returns a value and leaves a
    state, or it panics (an index out of range, a nil dereference, an
    explicit [panic]), or the model's loop budget ran out before it
    returned. *)
Inductive outcome (S A : Type) : Type :=
  | Returns (a : A) (s : S)
  | Panics
  | OutOfFuel.
Arguments Returns {S A} a s.
Arguments Panics {S A}.
Arguments OutOfFuel {S A}.

(** ** Strings and label lists *)

(** [len(s) == 0]. *)
Definition is_empty (s : string) : bool :=
  match s with EmptyString => true | String _ _ => false end.

(** [strconv.FormatInt(n, 16)]: lower-case hexadecimal digits, with a
    leading minus sign for a negative number. *)
Definition FormatInt16 (n : Z) : string :=
  NilZero.string_of_int (Z.to_hex_int n).

(** [strings.Split(s, ".")]: the pieces of [s] between the dots; never the
    empty list. *)
Fixpoint Split (s : string) : list string :=
  match s with
  | EmptyString => [EmptyString]
  | String c s' =>
      if Ascii.eqb c "."%char then EmptyString :: Split s'
      else match Split s' with
           | h :: t => String c h :: t
           | [] => [String c EmptyString]
           end
  end.

(** [parts[i], parts[j] = parts[j], parts[i]]. *)
Definition swap (parts : list string) (i j : nat) : list string :=
  match parts !! i, parts !! j with
  | Some a, Some b => <[j:=a]> (<[i:=b]> parts)
  | _, _ => parts
  end.

(** The loop [for i, j := 0, len(parts)-1; i < j; i, j = i+1, j-1]; it ends
    within [len(parts)] rounds. *)
Fixpoint reverse_loop (fuel i j : nat) (parts : list string) : list string :=
  match fuel with
  | O => parts
  | S fuel' =>
      if decide (i < j)
      then reverse_loop fuel' (S i) (pred j) (swap parts i j)
      else parts
  end.

Definition reverseParts (parts : list string) : list string :=
  reverse_loop (length parts) 0 (length parts - 1) parts.

(** [strings.Split] followed by the reversing loop. *)
Definition domainParts (name : string) : list string :=
  reverseParts (Split name).

(** The inner loop of [IsDomainBlocked] from index [i] on, [rest] being
    [blockedParts[i:]]:
      for i := range blockedParts {
        if blockedParts[i] != domainParts[i] { isMatch = false; break } }
    [None] is the panic of [domainParts[i]] with [i] out of range. *)
Fixpoint matchParts (i : nat) (rest query : list string) : option bool :=
  match rest with
  | [] => Some true
  | b :: rest' =>
      match query !! i with
      | None => None
      | Some d =>
          if String.eqb b d then matchParts (S i) rest' query else Some false
      end
  end.

(** The outer loop of [IsDomainBlocked] over the block list. *)
Fixpoint scanBlockList (blockList : list (list string)) (query : list string)
  : option bool :=
  match blockList with
  | [] => Some false
  | blockedParts :: blockList' =>
      match matchParts 0 blockedParts query with
      | None => None
      | Some true => Some true
      | Some false => scanBlockList blockList' query
      end
  end.

(** [strings.Join(parts, ".")], the inverse of [Split]. *)
Fixpoint Join (parts : list string) : string :=
  match parts with
  | [] => EmptyString
  | [x] => x
  | x :: (_ :: _) as rest => x +:+ "." +:+ Join rest
  end.

(** ** What the store takes from outside

    The packages the file imports, as far as the store uses them. *)
Class Collaborators : Type := {
  (** the dynamic types a [crypto.PublicKey] can have besides the two JWK
      types *)
  RawKey : Type;
  (** [x509.MarshalPKIXPublicKey] *)
  MarshalPKIXPublicKey : RawKey → result (list Byte.byte);
  (** [hex.EncodeToString] of [sha256.Sum256] *)
  Sum256Hex : list Byte.byte → string;
  (** the state of a [*rand.Rand] and its method [Int63] *)
  Rand : Type;
  Int63 : Rand → Z * Rand;
  (** [base64.RawURLEncoding.DecodeString] *)
  DecodeString : string → result (list Byte.byte);
  (** the fields of a [core.Order] the store never touches *)
  OrderData : Type
}.

(** ** Objects *)

(** A [crypto.PublicKey]: a [*jose.JSONWebKey] (possibly nil), a
    [jose.JSONWebKey], or a value of another type.  Of a JWK only its field
    [Key] matters here. *)
Inductive PublicKey `{Collaborators} : Type :=
  | PtrJSONWebKey (t : option JSONWebKey)
  | ValJSONWebKey (t : JSONWebKey)
  | OtherKey (k : RawKey)
with JSONWebKey `{Collaborators} : Type :=
  | mkJSONWebKey (Key : PublicKey).

Record Account `{Collaborators} : Type := mkAccount {
  Account_ID : string;
  Account_Key : option JSONWebKey   (* a pointer, [None] when nil *)
}.

Record Certificate : Type := mkCertificate {
  Certificate_ID : string;
  Certificate_DER : list Byte.byte;
  Certificate_SerialNumber : Z;     (* Cert.SerialNumber *)
  Certificate_ARIResponse : string
}.

Record RevokedCertificate : Type := mkRevokedCertificate {
  RevokedCertificate_Certificate : loc   (* pointer to core.Certificate *)
}.

Record Order `{Collaborators} : Type := mkOrder {
  Order_ID : string;
  Order_AccountID : string;
  Order_Status : string;
  Order_IsReplaced : bool;
  Order_CertificateObject : loc;   (* pointer to core.Certificate *)
  Order_Data : OrderData
}.

Record Authorization : Type := mkAuthorization {
  Authorization_ID : string
}.

Record Challenge : Type := mkChallenge {
  Challenge_ID : string
}.

Arguments mkAccount {_} _ _.
Arguments mkOrder {_} _ _ _ _ _ _.
Arguments mkJSONWebKey {_} _.

(** The method [GetStatus] of [core.Order], supplied by the order state
    machine. *)
Class StatusMachine `{Collaborators} : Type := {
  GetStatus : Order → result string
}.

(** ** The heap and the store *)

Record Heap `{Collaborators} : Type := mkHeap {
  accounts : gmap loc Account;
  orders : gmap loc Order;
  authorizations : gmap loc Authorization;
  challenges : gmap loc Challenge;
  certificates : gmap loc Certificate;
  revokedCertificates : gmap loc RevokedCertificate
}.

Record MemoryStore `{Collaborators} : Type := mkMemoryStore {
  accountRand : Rand;
  accountsByID : gmap string loc;
  accountsByKeyID : gmap string loc;
  ordersByIssuedSerial : gmap string loc;
  ordersByID : gmap string loc;
  ordersByAccountID : gmap string (list loc);
  authorizationsByID : gmap string loc;
  challengesByID : gmap string loc;
  certificatesByID : gmap string loc;
  revokedCertificatesByID : gmap string loc;
  externalAccountKeysByID : gmap string (list Byte.byte);
  blockListByDomain : list (list string)
}.

(** The heap of objects together with the store [m] points into. *)
Record World `{Collaborators} : Type := mkWorld {
  heap : Heap;
  store : MemoryStore
}.

Section Operations.
Context `{SM : StatusMachine}.

(** [NewMemoryStore], given the seeded random source. *)
Definition NewMemoryStore (r : Rand) : MemoryStore :=
  {| accountRand := r; accountsByID := ∅; accountsByKeyID := ∅;
     ordersByIssuedSerial := ∅; ordersByID := ∅; ordersByAccountID := ∅;
     authorizationsByID := ∅; challengesByID := ∅; certificatesByID := ∅;
     revokedCertificatesByID := ∅; externalAccountKeysByID := ∅;
     blockListByDomain := [] |}.

(** *** Field updates *)

Definition with_accounts (f : gmap loc Account) (h : Heap) : Heap :=
  {| accounts := f; orders := orders h; authorizations := authorizations h;
     challenges := challenges h; certificates := certificates h;
     revokedCertificates := revokedCertificates h |}.

Definition with_orders (f : gmap loc Order) (h : Heap) : Heap :=
  {| accounts := accounts h; orders := f; authorizations := authorizations h;
     challenges := challenges h; certificates := certificates h;
     revokedCertificates := revokedCertificates h |}.

Definition with_certificates (f : gmap loc Certificate) (h : Heap) : Heap :=
  {| accounts := accounts h; orders := orders h;
     authorizations := authorizations h; challenges := challenges h;
     certificates := f; revokedCertificates := revokedCertificates h |}.

Definition with_heap (h : Heap) (w : World) : World :=
  {| heap := h; store := store w |}.

Definition with_store (m : MemoryStore) (w : World) : World :=
  {| heap := heap w; store := m |}.

Definition set_accountRand (r : Rand) (m : MemoryStore) : MemoryStore :=
  {| accountRand := r; accountsByID := accountsByID m;
     accountsByKeyID := accountsByKeyID m;
     ordersByIssuedSerial := ordersByIssuedSerial m;
     ordersByID := ordersByID m; ordersByAccountID := ordersByAccountID m;
     authorizationsByID := authorizationsByID m;
     challengesByID := challengesByID m;
     certificatesByID := certificatesByID m;
     revokedCertificatesByID := revokedCertificatesByID m;
     externalAccountKeysByID := externalAccountKeysByID m;
     blockListByDomain := blockListByDomain m |}.

Definition set_accountMaps (byID byKeyID : gmap string loc) (m : MemoryStore)
  : MemoryStore :=
  {| accountRand := accountRand m; accountsByID := byID;
     accountsByKeyID := byKeyID;
     ordersByIssuedSerial := ordersByIssuedSerial m;
     ordersByID := ordersByID m; ordersByAccountID := ordersByAccountID m;
     authorizationsByID := authorizationsByID m;
     challengesByID := challengesByID m;
     certificatesByID := certificatesByID m;
     revokedCertificatesByID := revokedCertificatesByID m;
     externalAccountKeysByID := externalAccountKeysByID m;
     blockListByDomain := blockListByDomain m |}.

Definition set_orderMaps (byID : gmap string loc)
    (byAccountID : gmap string (list loc)) (m : MemoryStore) : MemoryStore :=
  {| accountRand := accountRand m; accountsByID := accountsByID m;
     accountsByKeyID := accountsByKeyID m;
     ordersByIssuedSerial := ordersByIssuedSerial m;
     ordersByID := byID; ordersByAccountID := byAccountID;
     authorizationsByID := authorizationsByID m;
     challengesByID := challengesByID m;
     certificatesByID := certificatesByID m;
     revokedCertificatesByID := revokedCertificatesByID m;
     externalAccountKeysByID := externalAccountKeysByID m;
     blockListByDomain := blockListByDomain m |}.

Definition set_ordersByIssuedSerial (f : gmap string loc) (m : MemoryStore)
  : MemoryStore :=
  {| accountRand := accountRand m; accountsByID := accountsByID m;
     accountsByKeyID := accountsByKeyID m;
     ordersByIssuedSerial := f;
     ordersByID := ordersByID m; ordersByAccountID := ordersByAccountID m;
     authorizationsByID := authorizationsByID m;
     challengesByID := challengesByID m;
     certificatesByID := certificatesByID m;
     revokedCertificatesByID := revokedCertificatesByID m;
     externalAccountKeysByID := externalAccountKeysByID m;
     blockListByDomain := blockListByDomain m |}.

Definition set_authorizationsByID (f : gmap string loc) (m : MemoryStore)
  : MemoryStore :=
  {| accountRand := accountRand m; accountsByID := accountsByID m;
     accountsByKeyID := accountsByKeyID m;
     ordersByIssuedSerial := ordersByIssuedSerial m;
     ordersByID := ordersByID m; ordersByAccountID := ordersByAccountID m;
     authorizationsByID := f;
     challengesByID := challengesByID m;
     certificatesByID := certificatesByID m;
     revokedCertificatesByID := revokedCertificatesByID m;
     externalAccountKeysByID := externalAccountKeysByID m;
     blockListByDomain := blockListByDomain m |}.

Definition set_challengesByID (f : gmap string loc) (m : MemoryStore)
  : MemoryStore :=
  {| accountRand := accountRand m; accountsByID := accountsByID m;
     accountsByKeyID := accountsByKeyID m;
     ordersByIssuedSerial := ordersByIssuedSerial m;
     ordersByID := ordersByID m; ordersByAccountID := ordersByAccountID m;
     authorizationsByID := authorizationsByID m;
     challengesByID := f;
     certificatesByID := certificatesByID m;
     revokedCertificatesByID := revokedCertificatesByID m;
     externalAccountKeysByID := externalAccountKeysByID m;
     blockListByDomain := blockListByDomain m |}.

Definition set_certificatesByID (f : gmap string loc) (m : MemoryStore)
  : MemoryStore :=
  {| accountRand := accountRand m; accountsByID := accountsByID m;
     accountsByKeyID := accountsByKeyID m;
     ordersByIssuedSerial := ordersByIssuedSerial m;
     ordersByID := ordersByID m; ordersByAccountID := ordersByAccountID m;
     authorizationsByID := authorizationsByID m;
     challengesByID := challengesByID m;
     certificatesByID := f;
     revokedCertificatesByID := revokedCertificatesByID m;
     externalAccountKeysByID := externalAccountKeysByID m;
     blockListByDomain := blockListByDomain m |}.

Definition set_revokedCertificatesByID (f : gmap string loc)
    (m : MemoryStore) : MemoryStore :=
  {| accountRand := accountRand m; accountsByID := accountsByID m;
     accountsByKeyID := accountsByKeyID m;
     ordersByIssuedSerial := ordersByIssuedSerial m;
     ordersByID := ordersByID m; ordersByAccountID := ordersByAccountID m;
     authorizationsByID := authorizationsByID m;
     challengesByID := challengesByID m;
     certificatesByID := certificatesByID m;
     revokedCertificatesByID := f;
     externalAccountKeysByID := externalAccountKeysByID m;
     blockListByDomain := blockListByDomain m |}.

Definition set_externalAccountKeysByID (f : gmap string (list Byte.byte))
    (m : MemoryStore) : MemoryStore :=
  {| accountRand := accountRand m; accountsByID := accountsByID m;
     accountsByKeyID := accountsByKeyID m;
     ordersByIssuedSerial := ordersByIssuedSerial m;
     ordersByID := ordersByID m; ordersByAccountID := ordersByAccountID m;
     authorizationsByID := authorizationsByID m;
     challengesByID := challengesByID m;
     certificatesByID := certificatesByID m;
     revokedCertificatesByID := revokedCertificatesByID m;
     externalAccountKeysByID := f;
     blockListByDomain := blockListByDomain m |}.

Definition set_blockListByDomain (l : list (list string)) (m : MemoryStore)
  : MemoryStore :=
  {| accountRand := accountRand m; accountsByID := accountsByID m;
     accountsByKeyID := accountsByKeyID m;
     ordersByIssuedSerial := ordersByIssuedSerial m;
     ordersByID := ordersByID m; ordersByAccountID := ordersByAccountID m;
     authorizationsByID := authorizationsByID m;
     challengesByID := challengesByID m;
     certificatesByID := certificatesByID m;
     revokedCertificatesByID := revokedCertificatesByID m;
     externalAccountKeysByID := externalAccountKeysByID m;
     blockListByDomain := l |}.

(** *** Object updates *)

Definition set_Account_ID (id : string) (a : Account) : Account :=
  {| Account_ID := id; Account_Key := Account_Key a |}.

Definition set_Account_Key (k : option JSONWebKey) (a : Account) : Account :=
  {| Account_ID := Account_ID a; Account_Key := k |}.

Definition set_Order_Status (st : string) (o : Order) : Order :=
  {| Order_ID := Order_ID o; Order_AccountID := Order_AccountID o;
     Order_Status := st; Order_IsReplaced := Order_IsReplaced o;
     Order_CertificateObject := Order_CertificateObject o;
     Order_Data := Order_Data o |}.

Definition set_Order_IsReplaced (b : bool) (o : Order) : Order :=
  {| Order_ID := Order_ID o; Order_AccountID := Order_AccountID o;
     Order_Status := Order_Status o; Order_IsReplaced := b;
     Order_CertificateObject := Order_CertificateObject o;
     Order_Data := Order_Data o |}.

Definition set_Certificate_ARIResponse (r : string) (c : Certificate)
  : Certificate :=
  {| Certificate_ID := Certificate_ID c; Certificate_DER := Certificate_DER c;
     Certificate_SerialNumber := Certificate_SerialNumber c;
     Certificate_ARIResponse := r |}.

(** [len(m)] of a Go map. *)
Definition len {V : Type} (m : gmap string V) : Z := Z.of_nat (size m).

(** *** Key fingerprints *)

(** [keyToID]: unwrap JWKs, then the hex SHA-256 of the key's PKIX
    encoding. *)
Fixpoint keyToID (key : PublicKey) : result string :=
  match key with
  | PtrJSONWebKey None => Err ErrNilKeyID
  | PtrJSONWebKey (Some (mkJSONWebKey k)) => keyToID k
  | ValJSONWebKey (mkJSONWebKey k) => keyToID k
  | OtherKey k =>
      match MarshalPKIXPublicKey k with
      | Err e => Err e
      | Ok keyDER => Ok (Sum256Hex keyDER)
      end
  end.

(** *** Accounts *)

Definition GetAccountByID (id : string) (w : World)
  : outcome World (option loc) :=
  Returns (accountsByID (store w) !! id) w.

Definition GetAccountByKey (key : PublicKey) (w : World)
  : outcome World (result (option loc)) :=
  match keyToID key with
  | Err e => Returns (Err e) w
  | Ok keyID => Returns (Ok (accountsByKeyID (store w) !! keyID)) w
  end.

Definition UpdateAccountByID (id : string) (acct : loc) (w : World)
  : outcome World (result unit) :=
  match accountsByID (store w) !! id ≫= (accounts (heap w) !!.) with
  | None => Returns (Err (ErrAccountDoesNotExist id)) w
  | Some _ =>
      match accounts (heap w) !! acct with
      | None => Panics
      | Some a =>
          match keyToID (PtrJSONWebKey (Account_Key a)) with
          | Err e => Returns (Err e) w
          | Ok keyID =>
              Returns (Ok ())
                (with_store
                   (set_accountMaps
                      (<[id:=acct]> (accountsByID (store w)))
                      (<[keyID:=acct]> (accountsByKeyID (store w)))
                      (store w)) w)
          end
      end
  end.

(** The loop of [AddAccount] that draws account IDs until one is unused.
    [fuel] bounds the number of draws. *)
Fixpoint newAccountID (fuel : nat) (r : Rand) (byID : gmap string loc)
  : option (string * Rand) :=
  match fuel with
  | O => None
  | S fuel' =>
      let acctID := FormatInt16 (Int63 r).1 in
      match byID !! acctID with
      | Some _ => newAccountID fuel' (Int63 r).2 byID
      | None => Some (acctID, (Int63 r).2)
      end
  end.

Definition AddAccount (fuel : nat) (acct : loc) (w : World)
  : outcome World (result Z) :=
  match accounts (heap w) !! acct with
  | None => Panics
  | Some a =>
      match Account_Key a with
      | None => Returns (Err ErrAccountNilKey) w
      | Some k =>
          match keyToID (PtrJSONWebKey (Some k)) with
          | Err e => Returns (Err e) w
          | Ok keyID =>
              match newAccountID fuel (accountRand (store w))
                      (accountsByID (store w)) with
              | None => OutOfFuel
              | Some (acctID, r) =>
                  let m := set_accountRand r (store w) in
                  match accountsByKeyID m !! keyID with
                  | Some _ => Returns (Err ErrAccountKeyExists) (with_store m w)
                  | None =>
                      let byID := <[acctID:=acct]> (accountsByID m) in
                      Returns (Ok (len byID))
                        {| heap :=
                             with_accounts
                               (<[acct:=set_Account_ID acctID a]>
                                  (accounts (heap w))) (heap w);
                           store :=
                             set_accountMaps byID
                               (<[keyID:=acct]> (accountsByKeyID m)) m |}
                  end
              end
          end
      end
  end.

Definition ChangeAccountKey (acct : loc) (newKey : option JSONWebKey)
    (w : World) : outcome World (result unit) :=
  match accounts (heap w) !! acct with
  | None => Panics
  | Some a =>
      match keyToID (PtrJSONWebKey (Account_Key a)) with
      | Err e => Returns (Err e) w
      | Ok oldKeyID =>
          match keyToID (PtrJSONWebKey newKey) with
          | Err e => Returns (Err e) w
          | Ok newKeyID =>
              match accountsByKeyID (store w) !! newKeyID with
              | Some otherAccount =>
                  Returns (Err (ExistingAccountError otherAccount)) w
              | None =>
                  Returns (Ok ())
                    {| heap :=
                         with_accounts
                           (<[acct:=set_Account_Key newKey a]>
                              (accounts (heap w))) (heap w);
                       store :=
                         set_accountMaps
                           (<[Account_ID a:=acct]> (accountsByID (store w)))
                           (<[newKeyID:=acct]>
                              (delete oldKeyID (accountsByKeyID (store w))))
                           (store w) |}
              end
          end
      end
  end.

(** *** Orders *)

Definition AddOrder (order : loc) (w : World) : outcome World (result Z) :=
  match orders (heap w) !! order with
  | None => Panics
  | Some o =>
      let orderID := Order_ID o in
      let accountID := Order_AccountID o in
      if is_empty orderID then Returns (Err ErrOrderEmptyID) w
      else match ordersByID (store w) !! orderID with
           | Some _ => Returns (Err (ErrOrderExists orderID)) w
           | None =>
               let byAccount :=
                 match ordersByAccountID (store w) !! accountID with
                 | Some l => l
                 | None => []
                 end in
               let byID := <[orderID:=order]> (ordersByID (store w)) in
               Returns (Ok (len byID))
                 (with_store
                    (set_orderMaps byID
                       (<[accountID:=byAccount ++ [order]]>
                          (ordersByAccountID (store w)))
                       (store w)) w)
           end
  end.

Definition AddOrderByIssuedSerial (order : loc) (w : World)
  : outcome World (result unit) :=
  match orders (heap w) !! order with
  | None => Panics
  | Some o =>
      match certificates (heap w) !! Order_CertificateObject o with
      | None => Returns (Err ErrOrderNoCertificateObject) w
      | Some c =>
          Returns (Ok ())
            (with_store
               (set_ordersByIssuedSerial
                  (<[Certificate_ID c:=order]>
                     (ordersByIssuedSerial (store w)))
                  (store w)) w)
      end
  end.

Definition GetOrderByID (id : string) (w : World)
  : outcome World (option loc) :=
  match ordersByID (store w) !! id with
  | Some order =>
      match orders (heap w) !! order with
      | None => Panics
      | Some o =>
          match GetStatus o with
          | Err _ => Panics
          | Ok orderStatus =>
              Returns (Some order)
                (with_heap
                   (with_orders
                      (<[order:=set_Order_Status orderStatus o]>
                         (orders (heap w))) (heap w)) w)
          end
      end
  | None => Returns None w
  end.

Definition GetOrderByIssuedSerial (serial : string) (w : World)
  : outcome World (result loc) :=
  match ordersByIssuedSerial (store w) !! serial with
  | None => Returns (Err ErrOrderSerialNotFound) w
  | Some order => Returns (Ok order) w
  end.

Definition UpdateReplacedOrder (serial : string) (shouldBeReplaced : bool)
    (w : World) : outcome World (result unit) :=
  if is_empty serial then Returns (Err ErrNoSerialProvided) w
  else match GetOrderByIssuedSerial serial w with
       | Returns (Err e) w1 => Returns (Err (ErrNoOrderForCertificate e)) w1
       | Returns (Ok originalOrder) w1 =>
           match orders (heap w1) !! originalOrder with
           | None => Panics
           | Some o =>
               Returns (Ok ())
                 (with_heap
                    (with_orders
                       (<[originalOrder:=
                            set_Order_IsReplaced shouldBeReplaced o]>
                          (orders (heap w1))) (heap w1)) w1)
           end
       | Panics => Panics
       | OutOfFuel => OutOfFuel
       end.

(** The loop of [GetOrdersByAccountID] over the account's orders: each
    order's status is computed from the order as it is when the loop reaches
    it and stored in it.  [None] is the [panic(err)]. *)
Fixpoint refreshStatuses (l : list loc) (os : gmap loc Order)
  : option (gmap loc Order) :=
  match l with
  | [] => Some os
  | order :: l' =>
      match os !! order with
      | None => None
      | Some o =>
          match GetStatus o with
          | Err _ => None
          | Ok orderStatus =>
              refreshStatuses l' (<[order:=set_Order_Status orderStatus o]> os)
          end
      end
  end.

Definition GetOrdersByAccountID (accountID : string) (w : World)
  : outcome World (option (list loc)) :=
  match ordersByAccountID (store w) !! accountID with
  | Some l =>
      match refreshStatuses l (orders (heap w)) with
      | None => Panics
      | Some os => Returns (Some l) (with_heap (with_orders os (heap w)) w)
      end
  | None => Returns None w
  end.
(** *** Authorizations and challenges *)

(** [AddAuthorization].  On the empty-ID path the Go code returns while it
    still holds the authorization's read lock; locks are not modelled, so of
    that path only the error and the untouched indices are embedded. *)
Definition AddAuthorization (authz : loc) (w : World)
  : outcome World (result Z) :=
  match authorizations (heap w) !! authz with
  | None => Panics
  | Some a =>
      let authzID := Authorization_ID a in
      if is_empty authzID then Returns (Err ErrAuthzEmptyID) w
      else match authorizationsByID (store w) !! authzID with
           | Some _ => Returns (Err (ErrAuthzExists authzID)) w
           | None =>
               let byID := <[authzID:=authz]> (authorizationsByID (store w)) in
               Returns (Ok (len byID))
                 (with_store (set_authorizationsByID byID (store w)) w)
           end
  end.

Definition GetAuthorizationByID (id : string) (w : World)
  : outcome World (option loc) :=
  Returns (authorizationsByID (store w) !! id) w.

Definition AddChallenge (chal : loc) (w : World) : outcome World (result Z) :=
  match challenges (heap w) !! chal with
  | None => Panics
  | Some c =>
      let chalID := Challenge_ID c in
      if is_empty chalID then Returns (Err ErrChallengeEmptyID) w
      else match challengesByID (store w) !! chalID with
           | Some _ => Returns (Err (ErrChallengeExists chalID)) w
           | None =>
               let byID := <[chalID:=chal]> (challengesByID (store w)) in
               Returns (Ok (len byID))
                 (with_store (set_challengesByID byID (store w)) w)
           end
  end.

Definition GetChallengeByID (id : string) (w : World)
  : outcome World (option loc) :=
  Returns (challengesByID (store w) !! id) w.

(** *** Certificates *)

Definition AddCertificate (cert : loc) (w : World)
  : outcome World (result Z) :=
  match certificates (heap w) !! cert with
  | None => Panics
  | Some c =>
      let certID := Certificate_ID c in
      if is_empty certID then Returns (Err ErrCertEmptyID) w
      else match certificatesByID (store w) !! certID with
           | Some _ => Returns (Err (ErrCertExists certID)) w
           | None =>
               match revokedCertificatesByID (store w) !! certID with
               | Some _ => Returns (Err (ErrCertExistsRevoked certID)) w
               | None =>
                   let byID :=
                     <[certID:=cert]> (certificatesByID (store w)) in
                   Returns (Ok (len byID))
                     (with_store (set_certificatesByID byID (store w)) w)
               end
           end
  end.

Definition GetCertificateByID (id : string) (w : World)
  : outcome World (option loc) :=
  Returns (certificatesByID (store w) !! id) w.

Definition RevokeCertificate (cert : loc) (w : World) : outcome World unit :=
  match revokedCertificates (heap w) !! cert with
  | None => Panics
  | Some rc =>
      match certificates (heap w) !! RevokedCertificate_Certificate rc with
      | None => Panics
      | Some c =>
          Returns ()
            (with_store
               (set_revokedCertificatesByID
                  (<[Certificate_ID c:=cert]>
                     (revokedCertificatesByID (store w)))
                  (store w)) w)
      end
  end.

(** The loop of [SetARIResponse] over the entries of [certificatesByID] in
    the sequence [iter] in which the [range] clause yields them; Go leaves
    that sequence open. *)
Fixpoint setARIFirst (iter : list (string * loc)) (serial : Z)
    (ariResponse : string) (cs : gmap loc Certificate)
  : option (option (gmap loc Certificate)) :=
  match iter with
  | [] => Some None
  | (_, cert) :: iter' =>
      match cs !! cert with
      | None => None
      | Some c =>
          if decide (Certificate_SerialNumber c = serial)
          then Some (Some (<[cert:=set_Certificate_ARIResponse ariResponse c]> cs))
          else setARIFirst iter' serial ariResponse cs
      end
  end.

Definition SetARIResponse (iter : list (string * loc)) (serial : Z)
    (ariResponse : string) (w : World) : outcome World (result unit) :=
  match setARIFirst iter serial ariResponse (certificates (heap w)) with
  | None => Panics
  | Some None => Returns (Err (ErrCertSerialNotFound serial)) w
  | Some (Some cs) =>
      Returns (Ok ()) (with_heap (with_certificates cs (heap w)) w)
  end.

(** *** External account binding keys *)

Definition AddExternalAccountKeyByID (keyID key : string) (w : World)
  : outcome World (result unit) :=
  if is_empty key || is_empty keyID then Returns (Err ErrEABEmpty) w
  else match DecodeString key with
       | Err e => Returns (Err (ErrEABDecode key e)) w
       | Ok keyDecoded =>
           match externalAccountKeysByID (store w) !! keyID with
           | Some _ => Returns (Err (ErrEABPresent keyID)) w
           | None =>
               Returns (Ok ())
                 (with_store
                    (set_externalAccountKeysByID
                       (<[keyID:=keyDecoded]>
                          (externalAccountKeysByID (store w)))
                       (store w)) w)
           end
       end.

(** Returns the pair [(key, ok)]; [None] is [(nil, false)]. *)
Definition GetExtenalAccountKeyByID (keyID : string) (w : World)
  : outcome World (option (list Byte.byte)) :=
  Returns (externalAccountKeysByID (store w) !! keyID) w.

(** *** The block list *)

Definition AddBlockedDomain (name : string) (w : World)
  : outcome World (result unit) :=
  if is_empty name then Returns (Err ErrBlockedDomainEmpty) w
  else Returns (Ok ())
         (with_store
            (set_blockListByDomain
               (blockListByDomain (store w) ++ [domainParts name])
               (store w)) w).

Definition IsDomainBlocked (name : string) (w : World) : outcome World bool :=
  match scanBlockList (blockListByDomain (store w)) (domainParts name) with
  | None => Panics
  | Some b => Returns b w
  end.

(** ** Runs of the store

    [step w w'] holds when one call of a store operation, with any
    arguments, returns in [w] and leaves [w'].  The scanning lookups
    [FindValidAuthorization], [GetCertificateByDER], [GetCertificateBySerial]
    and their two counterparts for revoked certificates only read the store:
    they leave the world as it is and add no step. *)
Inductive step : World → World → Prop :=
  | step_GetAccountByID id w r w' :
      GetAccountByID id w = Returns r w' → step w w'
  | step_GetAccountByKey key w r w' :
      GetAccountByKey key w = Returns r w' → step w w'
  | step_UpdateReplacedOrder serial b w r w' :
      UpdateReplacedOrder serial b w = Returns r w' → step w w'
  | step_UpdateAccountByID id acct w r w' :
      UpdateAccountByID id acct w = Returns r w' → step w w'
  | step_AddAccount fuel acct w r w' :
      AddAccount fuel acct w = Returns r w' → step w w'
  | step_ChangeAccountKey acct newKey w r w' :
      ChangeAccountKey acct newKey w = Returns r w' → step w w'
  | step_AddOrder order w r w' :
      AddOrder order w = Returns r w' → step w w'
  | step_AddOrderByIssuedSerial order w r w' :
      AddOrderByIssuedSerial order w = Returns r w' → step w w'
  | step_GetOrderByID id w r w' :
      GetOrderByID id w = Returns r w' → step w w'
  | step_GetOrderByIssuedSerial serial w r w' :
      GetOrderByIssuedSerial serial w = Returns r w' → step w w'
  | step_GetOrdersByAccountID accountID w r w' :
      GetOrdersByAccountID accountID w = Returns r w' → step w w'
  | step_AddAuthorization authz w r w' :
      AddAuthorization authz w = Returns r w' → step w w'
  | step_GetAuthorizationByID id w r w' :
      GetAuthorizationByID id w = Returns r w' → step w w'
  | step_AddChallenge chal w r w' :
      AddChallenge chal w = Returns r w' → step w w'
  | step_GetChallengeByID id w r w' :
      GetChallengeByID id w = Returns r w' → step w w'
  | step_AddCertificate cert w r w' :
      AddCertificate cert w = Returns r w' → step w w'
  | step_GetCertificateByID id w r w' :
      GetCertificateByID id w = Returns r w' → step w w'
  | step_RevokeCertificate cert w r w' :
      RevokeCertificate cert w = Returns r w' → step w w'
  | step_SetARIResponse iter serial ariResponse w r w' :
      iter ≡ₚ map_to_list (certificatesByID (store w)) →
      SetARIResponse iter serial ariResponse w = Returns r w' → step w w'
  | step_AddExternalAccountKeyByID keyID key w r w' :
      AddExternalAccountKeyByID keyID key w = Returns r w' → step w w'
  | step_GetExtenalAccountKeyByID keyID w r w' :
      GetExtenalAccountKeyByID keyID w = Returns r w' → step w w'
  | step_AddBlockedDomain name w r w' :
      AddBlockedDomain name w = Returns r w' → step w w'
  | step_IsDomainBlocked name w r w' :
      IsDomainBlocked name w = Returns r w' → step w w'.

(** [w'] is a state the store can be in after some calls made in [w]. *)
Definition later_state (w w' : World) : Prop := rtc step w w'.

(** Two orders that differ at most in their field [Status]. *)
Definition same_but_Status (o1 o2 : Order) : Prop :=
  set_Order_Status EmptyString o1 = set_Order_Status EmptyString o2.

(** *** Lookups that scan an index by serial number

    As for [SetARIResponse], [iter] is the sequence in which the [range]
    clause yields the entries of the index. *)

(** The loop of [GetCertificateBySerial]; the outer [None] is the panic of
    dereferencing a nil entry. *)
Fixpoint findCertificateBySerial (iter : list (string * loc))
    (serialNumber : Z) (cs : gmap loc Certificate) : option (option loc) :=
  match iter with
  | [] => Some None
  | (_, cert) :: iter' =>
      match cs !! cert with
      | None => None
      | Some c =>
          if decide (serialNumber = Certificate_SerialNumber c)
          then Some (Some cert)
          else findCertificateBySerial iter' serialNumber cs
      end
  end.

Definition GetCertificateBySerial (iter : list (string * loc))
    (serialNumber : Z) (w : World) : outcome World (option loc) :=
  match findCertificateBySerial iter serialNumber (certificates (heap w)) with
  | None => Panics
  | Some r => Returns r w
  end.

(** The loop of [GetRevokedCertificateBySerial], which reads the serial
    number through the wrapped certificate. *)
Fixpoint findRevokedCertificateBySerial (iter : list (string * loc))
    (serialNumber : Z) (rcs : gmap loc RevokedCertificate)
    (cs : gmap loc Certificate) : option (option loc) :=
  match iter with
  | [] => Some None
  | (_, revoked) :: iter' =>
      match rcs !! revoked with
      | None => None
      | Some rc =>
          match cs !! RevokedCertificate_Certificate rc with
          | None => None
          | Some c =>
              if decide (serialNumber = Certificate_SerialNumber c)
              then Some (Some revoked)
              else findRevokedCertificateBySerial iter' serialNumber rcs cs
          end
      end
  end.

Definition GetRevokedCertificateBySerial (iter : list (string * loc))
    (serialNumber : Z) (w : World) : outcome World (option loc) :=
  match findRevokedCertificateBySerial iter serialNumber
          (revokedCertificates (heap w)) (certificates (heap w)) with
  | None => Panics
  | Some r => Returns r w
  end.

(** *** States of a store that started empty *)

(** [w] is a state reached by calls on a store made by [NewMemoryStore]. *)
Definition reachable (w : World) : Prop :=
  ∃ h r, later_state {| heap := h; store := NewMemoryStore r |} w.

(** Every value of the index [idx] is an allocated object, that is, not the
    nil pointer. *)
Definition points_into {A : Type} (idx : gmap string loc)
    (objs : gmap loc A) : Prop :=
  ∀ id p, idx !! id = Some p → is_Some (objs !! p).

(** No index of the store holds a nil pointer, and no revoked certificate of
    the revoked index wraps one. *)
Definition no_nil_entries (w : World) : Prop :=
  points_into (accountsByID (store w)) (accounts (heap w))
  ∧ points_into (accountsByKeyID (store w)) (accounts (heap w))
  ∧ points_into (ordersByIssuedSerial (store w)) (orders (heap w))
  ∧ points_into (ordersByID (store w)) (orders (heap w))
  ∧ (∀ accountID l p, ordersByAccountID (store w) !! accountID = Some l →
                      p ∈ l → is_Some (orders (heap w) !! p))
  ∧ points_into (authorizationsByID (store w)) (authorizations (heap w))
  ∧ points_into (challengesByID (store w)) (challenges (heap w))
  ∧ points_into (certificatesByID (store w)) (certificates (heap w))
  ∧ (∀ id p, revokedCertificatesByID (store w) !! id = Some p →
       ∃ rc, revokedCertificates (heap w) !! p = Some rc
             ∧ is_Some (certificates (heap w)
                          !! RevokedCertificate_Certificate rc)).

(** The two order indices list the same orders: an order filed under an ID
    has that ID and is in the list of its account, and an order in the list
    of an account has that account ID and is filed under its ID. *)
Definition order_indices_agree (w : World) : Prop :=
  (∀ id p, ordersByID (store w) !! id = Some p →
     ∃ o l, orders (heap w) !! p = Some o ∧ Order_ID o = id
            ∧ ordersByAccountID (store w) !! Order_AccountID o = Some l
            ∧ p ∈ l)
  ∧ (∀ accountID l p, ordersByAccountID (store w) !! accountID = Some l →
       p ∈ l →
       ∃ o, orders (heap w) !! p = Some o ∧ Order_AccountID o = accountID
            ∧ ordersByID (store w) !! Order_ID o = Some p).

End Operations.

(** ** A concrete set of collaborators

    Small executable stand-ins for the imported packages, so that the
    operations can be run on concrete stores: keys are named by strings, the
    random source counts up, and an order carries the status its state
    machine would compute ([None] when the computation fails). *)
Module Concrete.

(** The value of a character of the URL-safe base64 alphabet. *)
Definition b64url_value (c : ascii) : option N :=
  let n := N_of_ascii c in
  if (65 <=? n)%N && (n <=? 90)%N then Some (n - 65)%N
  else if (97 <=? n)%N && (n <=? 122)%N then Some (n - 71)%N
  else if (48 <=? n)%N && (n <=? 57)%N then Some (n + 4)%N
  else if (n =? 45)%N then Some 62%N
  else if (n =? 95)%N then Some 63%N
  else None.

Fixpoint b64url_values (s : string) : option (list N) :=
  match s with
  | EmptyString => Some []
  | String c s' =>
      match b64url_value c, b64url_values s' with
      | Some v, Some vs => Some (v :: vs)
      | _, _ => None
      end
  end.

Definition to_byte (n : N) : Byte.byte :=
  match Byte.of_N (n mod 256) with Some b => b | None => Byte.x00 end.

(** Four sextets give three bytes; a tail of two or three sextets gives one
    or two bytes; a tail of one sextet is malformed. *)
Fixpoint b64url_bytes (vs : list N) : option (list Byte.byte) :=
  match vs with
  | [] => Some []
  | [_] => None
  | [a; b] => Some [to_byte (a * 4 + b / 16)]
  | [a; b; c] =>
      Some [to_byte (a * 4 + b / 16); to_byte (b * 16 + c / 4)]
  | a :: b :: c :: d :: rest =>
      match b64url_bytes rest with
      | Some bs =>
          Some (to_byte (a * 4 + b / 16) :: to_byte (b * 16 + c / 4)
                  :: to_byte (c * 64 + d) :: bs)
      | None => None
      end
  end.

Definition decode (s : string) : result (list Byte.byte) :=
  match b64url_values s ≫= b64url_bytes with
  | Some bs => Ok bs
  | None => Err (ErrExternal "illegal base64 data")
  end.

#[local] Instance collaborators : Collaborators := {|
  RawKey := string;
  MarshalPKIXPublicKey k :=
    if is_empty k then Err (ErrExternal "x509: unsupported public key type")
    else Ok (list_byte_of_string k);
  Sum256Hex bs := string_of_list_byte bs;
  Rand := nat;
  Int63 n := (Z.of_nat n, S n);
  DecodeString := decode;
  OrderData := option string
|}.

#[local] Instance statusMachine : StatusMachine := {|
  GetStatus o :=
    match Order_Data o with
    | Some st => Ok st
    | None => Err (ErrExternal "order has the incorrect number of valid authorizations")
    end
|}.

Definition emptyHeap : Heap :=
  {| accounts := ∅; orders := ∅; authorizations := ∅; challenges := ∅;
     certificates := ∅; revokedCertificates := ∅ |}.

(** A fresh store over an empty heap. *)
Definition world0 : World :=
  {| heap := emptyHeap; store := NewMemoryStore 0%nat |}.

(** What a call leaves behind, when it returns. *)
Definition after {A : Type} (o : outcome World A) : World :=
  match o with Returns _ w => w | _ => world0 end.

Definition jwk (name : string) : JSONWebKey := mkJSONWebKey (OtherKey name).

(** Objects to run the store on.  Accounts 1 and 3 hold the same key;
    orders 1 and 2 were issued the same certificate; the status machine
    fails on order 3; revoked certificate 1 wraps certificate 1. *)
Definition heap1 : Heap :=
  {| accounts :=
       {[ 1%nat := mkAccount EmptyString (Some (jwk "Ka"));
          2%nat := mkAccount EmptyString (Some (jwk "Kb"));
          3%nat := mkAccount EmptyString (Some (jwk "Ka")) ]};
     orders :=
       {[ 1%nat := mkOrder "o1" "0" "pending" false 1%nat (Some "ready");
          2%nat := mkOrder "o2" "0" "pending" false 1%nat (Some "valid");
          3%nat := mkOrder "o3" "0" "pending" false 0%nat None ]};
     authorizations := {[ 1%nat := mkAuthorization "az1" ]};
     challenges := {[ 1%nat := mkChallenge "ch1" ]};
     certificates :=
       {[ 1%nat := mkCertificate "c1" [] 7 EmptyString;
          2%nat := mkCertificate "c2" [] 8 EmptyString ]};
     revokedCertificates := {[ 1%nat := mkRevokedCertificate 1%nat ]} |}.

(** A fresh store over those objects. *)
Definition world1 : World :=
  {| heap := heap1; store := NewMemoryStore 0%nat |}.

(** Account 1 registered (it gets the ID [0]), then account 2 too. *)
Definition worldA : World := after (AddAccount 1 1%nat world1).
Definition worldAB : World := after (AddAccount 1 2%nat worldA).

(** Certificate 1 added to the live index. *)
Definition worldC : World := after (AddCertificate 1%nat world1).

(** Certificate 1 revoked without having been added. *)
Definition worldR : World := after (RevokeCertificate 1%nat world1).

(** Order 1 added. *)
Definition worldO : World := after (AddOrder 1%nat world1).

(** Order 1 indexed under the ID of its certificate. *)
Definition worldS : World := after (AddOrderByIssuedSerial 1%nat world1).

(** The key ID [kid1] bound to the three bytes [key]. *)
Definition worldK : World :=
  after (AddExternalAccountKeyByID "kid1" "a2V5" world1).

(** The name [example.com] blocked, then [other.org] too. *)
Definition worldB : World := after (AddBlockedDomain "example.com" world1).
Definition worldBB : World := after (AddBlockedDomain "other.org" worldB).

(** Orders 1 and 2 added; then order 1 read. *)
Definition worldOO : World := after (AddOrder 2%nat worldO).
Definition worldOG : World := after (GetOrderByID "o1" worldO).

(** Certificates 1 and 2 in the live index. *)
Definition worldCC : World := after (AddCertificate 2%nat worldC).

(** Certificate 1 revoked, certificate 2 live. *)
Definition worldRC : World := after (AddCertificate 2%nat worldR).

(** Account 1 registered and the registration of account 3, which holds
    the same key, refused. *)
Definition worldA3 : World := after (AddAccount 1 3%nat worldA).

(** Accounts 1 and 2 registered and the key of account 1 changed to [Kc]. *)
Definition worldABc : World :=
  after (ChangeAccountKey 1%nat (Some (jwk "Kc")) worldAB).

End Concrete.

(** * Properties *)

(** ** Label lists *)

Lemma is_empty_true (s : string) : is_empty s = true ↔ s = EmptyString.
Proof. destruct s; simpl; split; congruence. Qed.

Lemma is_empty_false (s : string) : is_empty s = false ↔ s ≠ EmptyString.
Proof. destruct s; simpl; split; congruence. Qed.

Lemma Split_not_nil (s : string) : Split s ≠ [].
Proof.
  induction s as [|c s IH]; simpl; [done|].
  destruct (Ascii.eqb c "."); [done|]. by destruct (Split s).
Qed.

(** One round of the reversing loop exchanges the two ends of the part of
    the slice that is still to be reversed. *)
Lemma swap_ends (a m b : list string) (x y : string) :
  swap (a ++ x :: m ++ y :: b) (length a) (length a + S (length m))
  = (a ++ [y]) ++ m ++ x :: b.
Proof.
  unfold swap.
  rewrite (list_lookup_middle a (m ++ y :: b) x (length a)) by done.
  replace (a ++ x :: m ++ y :: b) with ((a ++ x :: m) ++ y :: b)
    by (by rewrite <- app_assoc).
  rewrite (list_lookup_middle (a ++ x :: m) b y)
    by (rewrite length_app; simpl; lia).
  rewrite <- (app_assoc a), <- app_comm_cons.
  rewrite (insert_app_r_alt a _ (length a)) by lia.
  rewrite Nat.sub_diag. simpl.
  rewrite (insert_app_r_alt a) by lia.
  replace (length a + S (length m) - length a) with (S (length m)) by lia.
  simpl.
  rewrite (insert_app_r_alt m) by lia. rewrite Nat.sub_diag. simpl.
  by rewrite <- app_assoc.
Qed.

Lemma reverse_loop_spec (fuel : nat) (a m b : list string) :
  (length m ≤ fuel)%nat →
  reverse_loop fuel (length a) (length a + length m - 1) (a ++ m ++ b)
  = a ++ reverse m ++ b.
Proof.
  revert a m b. induction fuel as [|fuel IH]; intros a m b Hlen.
  - destruct m; simpl in *; [done | lia].
  - simpl. destruct m as [|x m]; [|destruct m as [|y m _] using rev_ind].
    + simpl. case_decide; [lia | done].
    + simpl. case_decide; [lia | done].
    + rewrite length_cons, length_app in *. simpl in *.
      case_decide; [|lia].
      replace (length a + S (length m + 1) - 1)
        with (length a + S (length m)) by lia.
      rewrite <- app_assoc. simpl. rewrite swap_ends.
      replace (S (length a)) with (length (a ++ [y]))
        by (rewrite length_app; simpl; lia).
      replace (Init.Nat.pred (length a + S (length m)))
        with (length (a ++ [y]) + length m - 1)
        by (rewrite length_app; simpl; lia).
      rewrite (IH (a ++ [y]) m (x :: b)) by lia.
      rewrite reverse_cons, reverse_snoc.
      by rewrite <- !app_assoc.
Qed.

(** The in-place loop reverses the slice. *)
Lemma reverseParts_reverse (parts : list string) :
  reverseParts parts = reverse parts.
Proof.
  unfold reverseParts.
  pose proof (reverse_loop_spec (length parts) [] parts []) as H.
  simpl in H. rewrite !app_nil_r in H. by apply H.
Qed.

(** ** The block list *)

Lemma matchParts_drop (i : nat) (rest query : list string) :
  matchParts i rest query = matchParts 0 rest (drop i query).
Proof.
  revert i query.
  induction rest as [|b rest IH]; intros i query; simpl; [done|].
  rewrite lookup_drop, Nat.add_0_r.
  destruct (query !! i) as [d|]; [|done].
  destruct (String.eqb b d); [|done].
  rewrite (IH (S i) query), (IH 1%nat (drop i query)), drop_drop.
  by replace (i + 1)%nat with (S i) by lia.
Qed.

Lemma matchParts_cons (b d : string) (rest query : list string) :
  matchParts 0 (b :: rest) (d :: query)
  = if String.eqb b d then matchParts 0 rest query else Some false.
Proof. simpl. destruct (String.eqb b d); [|done]. by rewrite matchParts_drop. Qed.

(** The inner loop finds a match exactly when the stored entry is a prefix of
    the query's reversed labels. *)
Lemma matchParts_true (blockedParts query : list string) :
  matchParts 0 blockedParts query = Some true ↔ blockedParts `prefix_of` query.
Proof.
  revert query. induction blockedParts as [|b rest IH]; intros query.
  - simpl. split; [intros _; apply prefix_nil | done].
  - destruct query as [|d query].
    + simpl. split; [done|]. intros Hp. by apply prefix_nil_inv in Hp.
    + rewrite matchParts_cons.
      destruct (String.eqb_spec b d) as [->|Hne].
      * rewrite IH. split; [apply prefix_cons | apply prefix_cons_inv_2].
      * split; [done|]. intros Hp. by apply prefix_cons_inv_1 in Hp.
Qed.

(** The inner loop indexes past the end of the query exactly when the query's
    reversed labels are a proper prefix of the stored entry. *)
Lemma matchParts_panics (blockedParts query : list string) :
  matchParts 0 blockedParts query = None
  ↔ query `prefix_of` blockedParts ∧ (length query < length blockedParts)%nat.
Proof.
  revert query. induction blockedParts as [|b rest IH]; intros query.
  - simpl. split; [done | intros [_ ?]; lia].
  - destruct query as [|d query].
    + simpl. split; [|done]. intros _. split; [apply prefix_nil | lia].
    + rewrite matchParts_cons.
      destruct (String.eqb_spec b d) as [->|Hne].
      * rewrite IH. simpl. split.
        -- intros [Hp ?]. split; [by apply prefix_cons | lia].
        -- intros [Hp ?]. split; [by apply prefix_cons_inv_2 in Hp | lia].
      * split; [done|]. intros [Hp _]. by apply prefix_cons_inv_1 in Hp.
Qed.

(** The scan of the block list faults exactly when it reaches, before any
    entry that matches, an entry of which the query is a proper prefix. *)
Lemma scanBlockList_panics (blockList : list (list string))
    (query : list string) :
  scanBlockList blockList query = None
  ↔ ∃ l1 b l2, blockList = l1 ++ b :: l2
      ∧ Forall (λ x, matchParts 0 x query = Some false) l1
      ∧ query `prefix_of` b ∧ (length query < length b)%nat.
Proof.
  induction blockList as [|e blockList IH]; simpl.
  - split; [done|]. intros (l1 & b & l2 & Heq & _). by destruct l1.
  - destruct (matchParts 0 e query) as [[|]|] eqn:He.
    + split; [done|]. intros (l1 & b & l2 & Heq & Hall & Hp & Hlt).
      destruct l1 as [|x l1]; simplify_eq/=.
      * assert (matchParts 0 b query = None) by (by apply matchParts_panics).
        congruence.
      * apply Forall_cons in Hall as [? _]. congruence.
    + rewrite IH. split.
      * intros (l1 & b & l2 & -> & Hall & Hp).
        exists (e :: l1), b, l2. split; [done|]. split; [|done].
        by apply Forall_cons.
      * intros (l1 & b & l2 & Heq & Hall & Hp & Hlt).
        destruct l1 as [|x l1]; simplify_eq/=.
        -- assert (matchParts 0 b query = None) by (by apply matchParts_panics).
           congruence.
        -- apply Forall_cons in Hall as [_ Hall]. by exists l1, b, l2.
    + split; [|done]. intros _. exists [], e, blockList.
      split; [done|]. split; [done|]. by apply matchParts_panics.
Qed.

(** When the scan does not fault, it answers whether some stored entry is a
    prefix of the query. *)
Lemma scanBlockList_returns (blockList : list (list string))
    (query : list string) (r : bool) :
  scanBlockList blockList query = Some r →
  r = true ↔ ∃ b, b ∈ blockList ∧ b `prefix_of` query.
Proof.
  induction blockList as [|e blockList IH]; simpl.
  - intros [= <-]. split; [done|]. intros (b & Hb & _). by apply elem_of_nil in Hb.
  - destruct (matchParts 0 e query) as [[|]|] eqn:He; [| |done].
    + intros [= <-]. split; [|done]. intros _. exists e.
      split; [apply elem_of_cons; by left | by apply matchParts_true].
    + intros Hr. rewrite (IH Hr). split.
      * intros (b & Hb & Hp). exists b. split; [|done].
        apply elem_of_cons. by right.
      * intros (b & Hb & Hp). apply elem_of_cons in Hb as [->|Hb].
        -- apply matchParts_true in Hp. congruence.
        -- by exists b.
Qed.

Section BlockList.
Context `{SM : StatusMachine}.

(** With one entry on the list, a query is reported blocked exactly when the
    entry's reversed labels are a prefix of the query's, the call faults
    exactly when the query's are a proper prefix of the entry's, and the
    call reports no block otherwise; a longer entry is never reported as
    blocking a shorter query. *)
Theorem IsDomainBlocked_one_entry (w : World) (entry name : string) :
  blockListByDomain (store w) = [domainParts entry] →
  (IsDomainBlocked name w = Returns true w
     ↔ reverse (Split entry) `prefix_of` reverse (Split name))
  ∧ (IsDomainBlocked name w = Panics
     ↔ reverse (Split name) `prefix_of` reverse (Split entry)
        ∧ (length (Split name) < length (Split entry))%nat)
  ∧ ((length (Split name) < length (Split entry))%nat →
     IsDomainBlocked name w ≠ Returns true w).
Proof.
  intros Hbl. unfold IsDomainBlocked, domainParts in *. rewrite Hbl.
  rewrite !reverseParts_reverse. simpl.
  pose proof (matchParts_true (reverse (Split entry)) (reverse (Split name)))
    as Ht.
  pose proof (matchParts_panics (reverse (Split entry)) (reverse (Split name)))
    as Hp.
  rewrite !length_reverse in Hp.
  destruct (matchParts 0 (reverse (Split entry)) (reverse (Split name)))
    as [[|]|] eqn:He.
  - split; [|split].
    + split; [intros _; by apply Ht | done].
    + split; [done | intros Hx; by apply Hp in Hx].
    + intros Hlt _. assert (Hpre := proj1 Ht eq_refl).
      apply prefix_length in Hpre. rewrite !length_reverse in Hpre. lia.
  - split; [|split].
    + split; [done | intros Hx; by apply Ht in Hx].
    + split; [done | intros Hx; by apply Hp in Hx].
    + done.
  - split; [|split].
    + split; [done | intros Hx; by apply Ht in Hx].
    + split; [intros _; by apply Hp | done].
    + done.
Qed.

(** C1. The claim says that an entry with more labels than the query never
    makes [IsDomainBlocked] read past the end of the query's label list.
    The code does read past it: on a fresh store, after
    [AddBlockedDomain "foo.example.com"] succeeds, the call
    [IsDomainBlocked "example.com"] compares [com] and [example], then
    indexes the two-element query list at 2 and panics. *)
Theorem C1_IsDomainBlocked_longer_entry_faults (h : Heap) (r : Rand) :
  let w0 := {| heap := h; store := NewMemoryStore r |} in
  ∃ w, AddBlockedDomain "foo.example.com" w0 = Returns (Ok ()) w
       ∧ blockListByDomain (store w) = [["com"; "example"; "foo"]]
       ∧ domainParts "example.com" = ["com"; "example"]
       ∧ IsDomainBlocked "example.com" w = Panics.
Proof. intros w0. eexists. split; [reflexivity|]. by vm_compute. Qed.

(** C2. The claim lists four answers after [AddBlockedDomain "example.com"]
    on a fresh store.  The code gives three of them: [example.com] and
    [foo.example.com] are blocked and [other.com] is not.  On [com] it does
    not answer [false]: the stored entry has two labels, the query one, and
    the comparison loop panics at index 1. *)
Theorem C2_IsDomainBlocked_suffix_examples (h : Heap) (r : Rand) :
  let w0 := {| heap := h; store := NewMemoryStore r |} in
  ∃ w, AddBlockedDomain "example.com" w0 = Returns (Ok ()) w
       ∧ IsDomainBlocked "example.com" w = Returns true w
       ∧ IsDomainBlocked "foo.example.com" w = Returns true w
       ∧ IsDomainBlocked "other.com" w = Returns false w
       ∧ IsDomainBlocked "com" w = Panics.
Proof. intros w0. eexists. split; [reflexivity|]. by vm_compute. Qed.

End BlockList.

(** ** Accounts *)

Section Accounts.
Context `{SM : StatusMachine}.

(** More draws never change the ID the loop settles on. *)
Lemma newAccountID_more_fuel (fuel fuel' : nat) (r : Rand)
    (byID : gmap string loc) (x : string * Rand) :
  newAccountID fuel r byID = Some x → (fuel ≤ fuel')%nat →
  newAccountID fuel' r byID = Some x.
Proof.
  revert fuel' r. induction fuel as [|fuel IH]; intros fuel' r; [done|].
  intros Hx Hle. destruct fuel' as [|fuel']; [lia|]. simpl in *.
  destruct (byID !! FormatInt16 (Int63 r).1); [|done].
  apply IH; [done | lia].
Qed.

(** The ID the loop settles on is unused. *)
Lemma newAccountID_fresh (fuel : nat) (r r' : Rand) (byID : gmap string loc)
    (acctID : string) :
  newAccountID fuel r byID = Some (acctID, r') → byID !! acctID = None.
Proof.
  revert r. induction fuel as [|fuel IH]; intros r; [done|]. simpl.
  destruct (byID !! FormatInt16 (Int63 r).1) eqn:Hl; [apply IH|].
  by intros [= <- <-].
Qed.

(** What a successful [AddAccount] leaves: the account object carries the new
    ID and its old key, and both maps hold the account. *)
Lemma AddAccount_Ok (fuel : nat) (acct : loc) (w w' : World) (n : Z) :
  AddAccount fuel acct w = Returns (Ok n) w' →
  ∃ a k keyID acctID,
    accounts (heap w) !! acct = Some a
    ∧ Account_Key a = Some k
    ∧ keyToID (PtrJSONWebKey (Some k)) = Ok keyID
    ∧ accountsByID (store w) !! acctID = None
    ∧ accountsByKeyID (store w) !! keyID = None
    ∧ accounts (heap w') = <[acct:=set_Account_ID acctID a]> (accounts (heap w))
    ∧ accountsByID (store w') = <[acctID:=acct]> (accountsByID (store w))
    ∧ accountsByKeyID (store w') = <[keyID:=acct]> (accountsByKeyID (store w))
    ∧ n = len (accountsByID (store w')).
Proof.
  unfold AddAccount. intros Hr.
  destruct (accounts (heap w) !! acct) as [a|] eqn:Ha; [|done].
  destruct (Account_Key a) as [k|] eqn:Hk; [|done].
  destruct (keyToID (PtrJSONWebKey (Some k))) as [keyID|] eqn:Hid; [|done].
  destruct (newAccountID fuel _ _) as [[acctID r]|] eqn:Hnew; [|done].
  simpl in Hr.
  destruct (accountsByKeyID (store w) !! keyID) eqn:Hkey; [done|].
  injection Hr as <- <-. exists a, k, keyID, acctID. simpl.
  apply newAccountID_fresh in Hnew. done.
Qed.

(** C5. Account keys are unique and a failed [AddAccount] changes no account:
    when [AddAccount a1] has succeeded and the key of [a2] has the
    fingerprint of the key of [a1], then [AddAccount a2], once its loop has
    drawn an unused ID, fails with the conflict error
    [ErrAccountKeyExists]; afterwards the heap and both account maps are as
    before the call, and [GetAccountByID] and [GetAccountByKey] still
    return [a1], unchanged. *)
Theorem C5_AddAccount_key_conflict (fuel1 fuel2 : nat) (w0 w1 : World)
    (a1 a2 : loc) (n : Z) (acct1 acct2 : Account) (keyID acctID : string)
    (r : Rand) :
  AddAccount fuel1 a1 w0 = Returns (Ok n) w1 →
  accounts (heap w1) !! a1 = Some acct1 →
  accounts (heap w1) !! a2 = Some acct2 →
  keyToID (PtrJSONWebKey (Account_Key acct1)) = Ok keyID →
  keyToID (PtrJSONWebKey (Account_Key acct2)) = Ok keyID →
  newAccountID fuel2 (accountRand (store w1)) (accountsByID (store w1))
    = Some (acctID, r) →
  ∃ w2,
    AddAccount fuel2 a2 w1 = Returns (Err ErrAccountKeyExists) w2
    ∧ kind_of ErrAccountKeyExists = Conflict
    ∧ heap w2 = heap w1
    ∧ accountsByID (store w2) = accountsByID (store w1)
    ∧ accountsByKeyID (store w2) = accountsByKeyID (store w1)
    ∧ accounts (heap w2) !! a1 = Some acct1
    ∧ GetAccountByID (Account_ID acct1) w2 = Returns (Some a1) w2
    ∧ GetAccountByKey (PtrJSONWebKey (Account_Key acct1)) w2
      = Returns (Ok (Some a1)) w2.
Proof.
  intros Hadd H1 H2 Hk1 Hk2 Hnew.
  apply AddAccount_Ok in Hadd
    as (a & k & keyID' & acctID' & Ha & Hk & Hid & _ & _ & Hh & HbyID & HbyKey & _).
  rewrite Hh, lookup_insert_eq in H1. injection H1 as <-.
  unfold set_Account_ID in Hk1. cbn [Account_Key] in Hk1.
  rewrite Hk, Hid in Hk1. injection Hk1 as ->.
  assert (accountsByKeyID (store w1) !! keyID = Some a1) as Hpresent
    by (by rewrite HbyKey, lookup_insert_eq).
  assert (∃ k2, Account_Key acct2 = Some k2) as [k2 Hk2'].
  { destruct (Account_Key acct2); [by eexists | done]. }
  eexists. unfold AddAccount.
  rewrite H2, Hk2'. rewrite Hk2' in Hk2. rewrite Hk2, Hnew. simpl.
  rewrite Hpresent. split; [reflexivity|].
  unfold GetAccountByID, GetAccountByKey, set_Account_ID.
  cbn [Account_Key Account_ID]. rewrite Hk, Hid. simpl.
  rewrite Hh, HbyID, HbyKey, !lookup_insert_eq.
  unfold set_Account_ID. rewrite Hk. done.
Qed.

(** C3, as the code has it.  With both fingerprints computable,
    [ChangeAccountKey acct newKey] fails with [ExistingAccountError] exactly
    when the new fingerprint is a key of [accountsByKeyID], whichever account
    it maps to, [acct] itself included; the error carries that account and
    nothing is changed.  Otherwise the call succeeds: the old fingerprint's
    entry is removed, [acct] is installed under the new fingerprint and
    under its ID, its field [Key] is the new key, and nothing else
    changes. *)
Theorem C3_ChangeAccountKey_conflict (w : World) (acct : loc)
    (newKey : option JSONWebKey) (a : Account) (oldKeyID newKeyID : string) :
  accounts (heap w) !! acct = Some a →
  keyToID (PtrJSONWebKey (Account_Key a)) = Ok oldKeyID →
  keyToID (PtrJSONWebKey newKey) = Ok newKeyID →
  (∀ other, accountsByKeyID (store w) !! newKeyID = Some other →
     ChangeAccountKey acct newKey w
     = Returns (Err (ExistingAccountError other)) w
     ∧ kind_of (ExistingAccountError other) = KeyConflict)
  ∧ (accountsByKeyID (store w) !! newKeyID = None →
     ∃ w', ChangeAccountKey acct newKey w = Returns (Ok ()) w'
       ∧ accountsByKeyID (store w')
         = <[newKeyID:=acct]> (delete oldKeyID (accountsByKeyID (store w)))
       ∧ accountsByID (store w')
         = <[Account_ID a:=acct]> (accountsByID (store w))
       ∧ accounts (heap w')
         = <[acct:=set_Account_Key newKey a]> (accounts (heap w))
       ∧ with_accounts (accounts (heap w)) (heap w') = heap w
       ∧ set_accountMaps (accountsByID (store w)) (accountsByKeyID (store w))
           (store w') = store w).
Proof.
  intros Ha Hold Hnew. unfold ChangeAccountKey. rewrite Ha, Hold, Hnew.
  split.
  - intros other ->. done.
  - intros ->. eexists. split; [reflexivity|]. simpl.
    by destruct w as [[] []].
Qed.

End Accounts.

(** ** Orders *)

Section Orders.
Context `{SM : StatusMachine}.

Lemma same_but_Status_refl (o : Order) : same_but_Status o o.
Proof. done. Qed.

Lemma same_but_Status_set (st : string) (o : Order) :
  same_but_Status o (set_Order_Status st o).
Proof. done. Qed.

Lemma same_but_Status_trans (o1 o2 o3 : Order) :
  same_but_Status o1 o2 → same_but_Status o2 o3 → same_but_Status o1 o3.
Proof. unfold same_but_Status. congruence. Qed.

(** The status loop leaves alone the orders it does not visit. *)
Lemma refreshStatuses_frame (l : list loc) (os os' : gmap loc Order)
    (order : loc) :
  refreshStatuses l os = Some os' → order ∉ l → os' !! order = os !! order.
Proof.
  revert os. induction l as [|q l IH]; intros os; simpl.
  - by intros [= ->].
  - destruct (os !! q) as [oq|] eqn:Hq; [|done].
    destruct (GetStatus oq) as [st|]; [|done].
    intros Hr Hnot. apply not_elem_of_cons in Hnot as [Hne Hnot].
    rewrite (IH _ Hr Hnot). by rewrite lookup_insert_ne.
Qed.

(** Every order the status loop visits ends with the status computed from
    the order as the loop found it, which is the order of the start up to its
    field [Status]. *)
Lemma refreshStatuses_visited (l : list loc) (os os' : gmap loc Order)
    (order : loc) :
  refreshStatuses l os = Some os' → order ∈ l →
  ∃ o0 o st, os !! order = Some o0 ∧ same_but_Status o0 o
             ∧ GetStatus o = Ok st
             ∧ os' !! order = Some (set_Order_Status st o).
Proof.
  revert os. induction l as [|q l IH]; intros os; simpl.
  - intros _ Hin. by apply elem_of_nil in Hin.
  - destruct (os !! q) as [oq|] eqn:Hq; [|done].
    destruct (GetStatus oq) as [st|] eqn:Hst; [|done].
    intros Hr Hin. destruct (decide (order ∈ l)) as [Hl|Hl].
    + destruct (IH _ Hr Hl) as (o0 & o & st' & H0 & Hsame & Hget & Hfin).
      destruct (decide (q = order)) as [->|Hne].
      * rewrite lookup_insert_eq in H0. injection H0 as <-.
        exists oq, o, st'. split; [done|]. split; [|done].
        eapply same_but_Status_trans; [apply (same_but_Status_set st)|done].
      * rewrite lookup_insert_ne in H0 by done. by exists o0, o, st'.
    + apply elem_of_cons in Hin as [->|Hin]; [|done].
      exists oq, oq, st. rewrite (refreshStatuses_frame _ _ _ _ Hr Hl).
      by rewrite lookup_insert_eq.
Qed.

(** The status loop panics as soon as one order of the list has a failing
    status computation. *)
Lemma refreshStatuses_fails (l : list loc) (os : gmap loc Order)
    (order : loc) (o : Order) (e : error) :
  order ∈ l → os !! order = Some o → GetStatus o = Err e →
  refreshStatuses l os = None.
Proof.
  revert os. induction l as [|q l IH]; intros os Hin Ho He; simpl.
  - by apply elem_of_nil in Hin.
  - destruct (os !! q) as [oq|] eqn:Hq; [|done].
    destruct (GetStatus oq) as [st|] eqn:Hst; [|done].
    destruct (decide (q = order)) as [->|Hne]; [congruence|].
    apply elem_of_cons in Hin as [->|Hin]; [done|].
    apply IH; [done | by rewrite lookup_insert_ne | done].
Qed.


(** On a list without repetition whose orders all have a status, the status
    loop goes through and leaves in every order of the list the status
    computed from the order as it was before the loop. *)
Lemma refreshStatuses_each (l : list loc) (os : gmap loc Order) :
  NoDup l →
  (∀ order, order ∈ l → ∃ o st, os !! order = Some o ∧ GetStatus o = Ok st) →
  ∃ os', refreshStatuses l os = Some os'
    ∧ ∀ order o st, order ∈ l → os !! order = Some o → GetStatus o = Ok st →
        os' !! order = Some (set_Order_Status st o).
Proof.
  revert os. induction l as [|q l IH]; intros os Hnd Hall; simpl.
  - exists os. split; [done|]. intros order o st Hin. by apply elem_of_nil in Hin.
  - apply NoDup_cons in Hnd as [Hq Hnd].
    destruct (Hall q) as (oq & stq & Hoq & Hstq); [apply elem_of_cons; by left|].
    rewrite Hoq, Hstq.
    destruct (IH (<[q:=set_Order_Status stq oq]> os) Hnd) as (os' & Hr & Heach).
    { intros order Hin. rewrite lookup_insert_ne.
      - apply Hall, elem_of_cons. by right.
      - intros ->. done. }
    exists os'. split; [done|].
    intros order o st [->|Hin]%elem_of_cons Ho Hst.
    + rewrite (refreshStatuses_frame _ _ _ _ Hr Hq), lookup_insert_eq.
      congruence.
    + apply Heach; [done| |done]. rewrite lookup_insert_ne; [done|].
      intros ->. done.
Qed.

(** C8. Reads recompute the status and store it.
    [GetOrderByID]: for an ID that is not indexed it returns nil; for an
    indexed order whose status computation succeeds it returns that order,
    with the computed status written into its field [Status] and nothing
    else of the store changed; when the computation fails the call panics.
    It returns no order in any other way: an order it returns is the order
    of the index, with [Status] holding what [GetStatus] computed from it.
    [GetOrdersByAccountID]: for an account without a list it returns nil;
    for a list without repetition whose orders all have a status it returns
    the list, every order of it holding in [Status] the status computed from
    it; when the computation fails for an order of the list the call
    panics.  Whatever list it returns, every order of it has in [Status]
    what [GetStatus] computed from the order as the loop found it.  A
    panicking call returns nothing. *)
Theorem C8_order_status_recomputed_on_read (w : World) :
  (∀ id, ordersByID (store w) !! id = None →
     GetOrderByID id w = Returns None w)
  ∧ (∀ id order o st,
       ordersByID (store w) !! id = Some order →
       orders (heap w) !! order = Some o → GetStatus o = Ok st →
       ∃ w', GetOrderByID id w = Returns (Some order) w'
         ∧ orders (heap w') !! order = Some (set_Order_Status st o)
         ∧ store w' = store w)
  ∧ (∀ id order w', GetOrderByID id w = Returns (Some order) w' →
     ordersByID (store w) !! id = Some order
     ∧ ∃ o st, orders (heap w) !! order = Some o
               ∧ GetStatus o = Ok st
               ∧ orders (heap w') !! order = Some (set_Order_Status st o))
  ∧ (∀ id order o e,
       ordersByID (store w) !! id = Some order →
       orders (heap w) !! order = Some o → GetStatus o = Err e →
       GetOrderByID id w = Panics)
  ∧ (∀ accountID, ordersByAccountID (store w) !! accountID = None →
       GetOrdersByAccountID accountID w = Returns None w)
  ∧ (∀ accountID l,
       ordersByAccountID (store w) !! accountID = Some l → NoDup l →
       (∀ order, order ∈ l →
          ∃ o st, orders (heap w) !! order = Some o ∧ GetStatus o = Ok st) →
       ∃ w', GetOrdersByAccountID accountID w = Returns (Some l) w'
         ∧ store w' = store w
         ∧ ∀ order o st, order ∈ l → orders (heap w) !! order = Some o →
             GetStatus o = Ok st →
             orders (heap w') !! order = Some (set_Order_Status st o))
  ∧ (∀ accountID l w',
       GetOrdersByAccountID accountID w = Returns (Some l) w' →
       ordersByAccountID (store w) !! accountID = Some l
       ∧ ∀ order, order ∈ l →
           ∃ o0 o st, orders (heap w) !! order = Some o0
                      ∧ same_but_Status o0 o
                      ∧ GetStatus o = Ok st
                      ∧ orders (heap w') !! order
                        = Some (set_Order_Status st o))
  ∧ (∀ accountID l order o e,
       ordersByAccountID (store w) !! accountID = Some l →
       order ∈ l → orders (heap w) !! order = Some o →
       GetStatus o = Err e →
       GetOrdersByAccountID accountID w = Panics).
Proof.
  split_and!.
  - intros id Hid. unfold GetOrderByID. by rewrite Hid.
  - intros id order o st Hid Ho Hst. unfold GetOrderByID.
    rewrite Hid, Ho, Hst. eexists. split; [reflexivity|]. simpl.
    by rewrite lookup_insert_eq.
  - intros id order w'. unfold GetOrderByID.
    destruct (ordersByID (store w) !! id) as [p|] eqn:Hid; [|done].
    destruct (orders (heap w) !! p) as [o|] eqn:Ho; [|done].
    destruct (GetStatus o) as [st|] eqn:Hst; [|done].
    intros [= <- <-]. split; [done|]. exists o, st. simpl.
    by rewrite lookup_insert_eq.
  - intros id order o e Hid Ho He. unfold GetOrderByID.
    by rewrite Hid, Ho, He.
  - intros accountID Hl. unfold GetOrdersByAccountID. by rewrite Hl.
  - intros accountID l Hl Hnd Hall. unfold GetOrdersByAccountID. rewrite Hl.
    destruct (refreshStatuses_each l (orders (heap w)) Hnd Hall)
      as (os' & -> & Heach).
    eexists. split; [reflexivity|]. split; [done|]. exact Heach.
  - intros accountID l w'. unfold GetOrdersByAccountID.
    destruct (ordersByAccountID (store w) !! accountID) as [l0|] eqn:Hl;
      [|done].
    destruct (refreshStatuses l0 (orders (heap w))) as [os|] eqn:Hr; [|done].
    intros [= <- <-]. split; [done|]. intros order Hin. simpl.
    by apply (refreshStatuses_visited l0).
  - intros accountID l order o e Hl Hin Ho He. unfold GetOrdersByAccountID.
    by rewrite Hl, (refreshStatuses_fails l _ order o e).
Qed.


(** C10. [AddOrderByIssuedSerial] does not look for an earlier entry: for an
    order whose certificate reference is not nil it succeeds whatever the
    index holds under the certificate's ID, only that entry of the index
    changes, and afterwards [GetOrderByIssuedSerial] of that ID returns the
    order and no longer the one indexed there before. *)
Theorem C10_AddOrderByIssuedSerial_overwrites (w : World) (order : loc)
    (o : Order) (c : Certificate) :
  orders (heap w) !! order = Some o →
  certificates (heap w) !! Order_CertificateObject o = Some c →
  ∃ w', AddOrderByIssuedSerial order w = Returns (Ok ()) w'
    ∧ heap w' = heap w
    ∧ ordersByIssuedSerial (store w')
      = <[Certificate_ID c:=order]> (ordersByIssuedSerial (store w))
    ∧ GetOrderByIssuedSerial (Certificate_ID c) w' = Returns (Ok order) w'
    ∧ (∀ previous,
         ordersByIssuedSerial (store w) !! Certificate_ID c = Some previous →
         previous ≠ order →
         GetOrderByIssuedSerial (Certificate_ID c) w'
         ≠ Returns (Ok previous) w')
    ∧ (∀ serial, serial ≠ Certificate_ID c →
         GetOrderByIssuedSerial serial w'
         = match GetOrderByIssuedSerial serial w with
           | Returns r _ => Returns r w'
           | Panics => Panics
           | OutOfFuel => OutOfFuel
           end).
Proof.
  intros Ho Hc. unfold AddOrderByIssuedSerial. rewrite Ho, Hc.
  eexists. split; [reflexivity|]. unfold GetOrderByIssuedSerial. simpl.
  rewrite lookup_insert_eq. repeat split.
  - intros previous _ Hne [= ->]. done.
  - intros serial Hne. rewrite lookup_insert_ne by done.
    by destruct (ordersByIssuedSerial (store w) !! serial).
Qed.

End Orders.

(** ** Certificates *)

Section Certificates.
Context `{SM : StatusMachine}.

(** C9. [RevokeCertificate] has no error result and, given a revoked
    certificate that wraps a certificate, always returns.  It changes the
    revoked index at the wrapped certificate's ID, where it stores the
    argument over whatever was there, and nothing else: the heap, the live
    index and every other field of the store are as before, so
    [GetCertificateByID] answers as before. *)
Theorem C9_RevokeCertificate_frame (w : World) (cert : loc)
    (rc : RevokedCertificate) (c : Certificate) :
  revokedCertificates (heap w) !! cert = Some rc →
  certificates (heap w) !! RevokedCertificate_Certificate rc = Some c →
  ∃ w', RevokeCertificate cert w = Returns () w'
    ∧ revokedCertificatesByID (store w')
      = <[Certificate_ID c:=cert]> (revokedCertificatesByID (store w))
    ∧ revokedCertificatesByID (store w') !! Certificate_ID c = Some cert
    ∧ heap w' = heap w
    ∧ certificatesByID (store w') = certificatesByID (store w)
    ∧ (∀ id, GetCertificateByID id w'
             = Returns (certificatesByID (store w) !! id) w')
    ∧ accountRand (store w') = accountRand (store w)
    ∧ accountsByID (store w') = accountsByID (store w)
    ∧ accountsByKeyID (store w') = accountsByKeyID (store w)
    ∧ ordersByIssuedSerial (store w') = ordersByIssuedSerial (store w)
    ∧ ordersByID (store w') = ordersByID (store w)
    ∧ ordersByAccountID (store w') = ordersByAccountID (store w)
    ∧ authorizationsByID (store w') = authorizationsByID (store w)
    ∧ challengesByID (store w') = challengesByID (store w)
    ∧ externalAccountKeysByID (store w') = externalAccountKeysByID (store w)
    ∧ blockListByDomain (store w') = blockListByDomain (store w).
Proof.
  intros Hrc Hc. unfold RevokeCertificate. rewrite Hrc, Hc.
  eexists. split; [reflexivity|]. simpl. rewrite lookup_insert_eq.
  repeat split.
Qed.

(** C4, as the code has it.  For a certificate with a non-empty ID,
    [AddCertificate] is refused with a conflict error, the world unchanged,
    when the ID is a key of the live index or of the revoked index, and
    it succeeds only when the ID is a key of neither.  [RevokeCertificate]
    makes no such check: it enters the ID into the revoked index also when
    the live index holds it, and leaves the live index as it is. *)
Theorem C4_AddCertificate_shared_namespace (w : World) (cert : loc)
    (c : Certificate) :
  certificates (heap w) !! cert = Some c →
  Certificate_ID c ≠ EmptyString →
  (is_Some (certificatesByID (store w) !! Certificate_ID c)
   ∨ is_Some (revokedCertificatesByID (store w) !! Certificate_ID c) →
   ∃ e, AddCertificate cert w = Returns (Err e) w ∧ kind_of e = Conflict)
  ∧ (∀ n w', AddCertificate cert w = Returns (Ok n) w' →
       certificatesByID (store w) !! Certificate_ID c = None
       ∧ revokedCertificatesByID (store w) !! Certificate_ID c = None
       ∧ certificatesByID (store w') !! Certificate_ID c = Some cert)
  ∧ (∀ revoked rc,
       revokedCertificates (heap w) !! revoked = Some rc →
       RevokedCertificate_Certificate rc = cert →
       ∃ w', RevokeCertificate revoked w = Returns () w'
         ∧ revokedCertificatesByID (store w') !! Certificate_ID c
           = Some revoked
         ∧ certificatesByID (store w') = certificatesByID (store w)).
Proof.
  intros Hc Hne%is_empty_false. split; [|split].
  - unfold AddCertificate. rewrite Hc. simpl. rewrite Hne.
    intros [[p Hp]|[p Hp]].
    + rewrite Hp. by eexists.
    + rewrite Hp.
      destruct (certificatesByID (store w) !! Certificate_ID c);
        by eexists.
  - intros n w'. unfold AddCertificate. rewrite Hc. simpl. rewrite Hne.
    destruct (certificatesByID (store w) !! Certificate_ID c); [done|].
    destruct (revokedCertificatesByID (store w) !! Certificate_ID c); [done|].
    intros [= <- <-]. simpl. by rewrite lookup_insert_eq.
  - intros revoked rc Hrc <-. unfold RevokeCertificate. rewrite Hrc, Hc.
    eexists. split; [reflexivity|]. simpl. by rewrite lookup_insert_eq.
Qed.

End Certificates.

(** ** External account binding keys *)

Section ExternalAccountKeys.
Context `{SM : StatusMachine}.

(** Splits on every test that a call which returned has made. *)
Ltac open_call :=
  repeat (simplify_eq/=; try done;
          match goal with
          | Hcall : ?call = Returns _ _ |- _ =>
              match call with
              | context [match ?x with _ => _ end] =>
                  let E := fresh "E" in destruct x eqn:E
              end
          end);
  simplify_eq/=; try done.

(** No operation removes or replaces an entry of the key store. *)
Lemma step_keeps_external_account_key (w w' : World) (keyID : string)
    (raw : list Byte.byte) :
  step w w' →
  externalAccountKeysByID (store w) !! keyID = Some raw →
  externalAccountKeysByID (store w') !! keyID = Some raw.
Proof.
  intros Hstep Hraw. destruct Hstep;
    match goal with
    | Hcall : _ = Returns _ _ |- _ =>
        unfold GetAccountByID, GetAccountByKey, UpdateReplacedOrder,
          GetOrderByIssuedSerial, UpdateAccountByID, AddAccount,
          ChangeAccountKey, AddOrder, AddOrderByIssuedSerial,
          GetOrderByID, GetOrdersByAccountID, AddAuthorization,
          GetAuthorizationByID, AddChallenge, GetChallengeByID,
          AddCertificate, GetCertificateByID, RevokeCertificate,
          SetARIResponse, AddExternalAccountKeyByID,
          GetExtenalAccountKeyByID, AddBlockedDomain, IsDomainBlocked
          in Hcall
    end; open_call.
  rewrite lookup_insert_ne; [done | congruence].
Qed.

Lemma later_state_keeps_external_account_key (w w' : World) (keyID : string)
    (raw : list Byte.byte) :
  later_state w w' →
  externalAccountKeysByID (store w) !! keyID = Some raw →
  externalAccountKeysByID (store w') !! keyID = Some raw.
Proof.
  induction 1 as [|w1 w2 w3 Hstep _ IH]; [done|].
  intros Hraw. apply IH. by apply (step_keeps_external_account_key w1).
Qed.

(** C6. The key store classifies its failures and is write-once.
    [AddExternalAccountKeyByID] fails with the validation error when either
    argument is empty; else with the decode error when the key does not
    decode; else with the conflict error when the key ID is present; else it
    stores the decoded bytes.  After it has succeeded for a key ID, in every
    state the store reaches by later calls [GetExtenalAccountKeyByID] still
    returns those bytes and every [AddExternalAccountKeyByID] for the key ID
    fails, leaving the store unchanged. *)
Theorem C6_external_account_keys_write_once (w : World) (keyID key : string) :
  (key = EmptyString ∨ keyID = EmptyString →
     AddExternalAccountKeyByID keyID key w = Returns (Err ErrEABEmpty) w
     ∧ kind_of ErrEABEmpty = Validation)
  ∧ (key ≠ EmptyString → keyID ≠ EmptyString →
     ∀ e, DecodeString key = Err e →
       AddExternalAccountKeyByID keyID key w
       = Returns (Err (ErrEABDecode key e)) w
       ∧ kind_of (ErrEABDecode key e) = DecodeError)
  ∧ (key ≠ EmptyString → keyID ≠ EmptyString →
     ∀ raw, DecodeString key = Ok raw →
       is_Some (externalAccountKeysByID (store w) !! keyID) →
       AddExternalAccountKeyByID keyID key w
       = Returns (Err (ErrEABPresent keyID)) w
       ∧ kind_of (ErrEABPresent keyID) = Conflict)
  ∧ (key ≠ EmptyString → keyID ≠ EmptyString →
     ∀ raw, DecodeString key = Ok raw →
       externalAccountKeysByID (store w) !! keyID = None →
       ∃ w1, AddExternalAccountKeyByID keyID key w = Returns (Ok ()) w1
         ∧ externalAccountKeysByID (store w1)
           = <[keyID:=raw]> (externalAccountKeysByID (store w))
         ∧ ∀ w2, later_state w1 w2 →
             GetExtenalAccountKeyByID keyID w2 = Returns (Some raw) w2
             ∧ ∀ key', ∃ e,
                 AddExternalAccountKeyByID keyID key' w2
                 = Returns (Err e) w2)
  ∧ (∀ r w1, AddExternalAccountKeyByID keyID key w = Returns (Ok r) w1 →
       ∃ raw, DecodeString key = Ok raw
         ∧ externalAccountKeysByID (store w) !! keyID = None
         ∧ GetExtenalAccountKeyByID keyID w1 = Returns (Some raw) w1).
Proof.
  unfold AddExternalAccountKeyByID. split; [|split; [|split; [|split]]].
  - intros [->| ->]; [done|]. by rewrite orb_true_r.
  - intros Hk%is_empty_false Hid%is_empty_false e He.
    by rewrite Hk, Hid, He.
  - intros Hk%is_empty_false Hid%is_empty_false raw Hraw [old Hold].
    by rewrite Hk, Hid, Hraw, Hold.
  - intros Hk%is_empty_false Hid%is_empty_false raw Hraw Hnone.
    rewrite Hk, Hid, Hraw, Hnone. eexists. split; [reflexivity|].
    split; [done|]. intros w2 Hlater.
    assert (externalAccountKeysByID (store w2) !! keyID = Some raw) as Hw2.
    { apply (later_state_keeps_external_account_key _ _ _ _ Hlater).
      simpl. by rewrite lookup_insert_eq. }
    split; [unfold GetExtenalAccountKeyByID; by rewrite Hw2|].
    intros key'. rewrite orb_false_r.
    destruct (is_empty key'); [by eexists|].
    destruct (DecodeString key'); [|by eexists].
    rewrite Hw2. by eexists.
  - intros r w1.
    destruct (is_empty key || is_empty keyID); [done|].
    destruct (DecodeString key) as [raw|]; [|done].
    destruct (externalAccountKeysByID (store w) !! keyID) eqn:Hl; [done|].
    intros [= <- <-]. exists raw. split; [done|]. split; [done|].
    unfold GetExtenalAccountKeyByID. simpl. by rewrite lookup_insert_eq.
Qed.

End ExternalAccountKeys.

(** ** Runs on concrete stores *)

Section Runs.
Import Concrete.
#[local] Existing Instance Concrete.collaborators.
#[local] Existing Instance Concrete.statusMachine.

(** The stand-in decoder reads unpadded URL-safe base64. *)
Example decode_key : DecodeString "a2V5" = Ok (list_byte_of_string "key").
Proof. reflexivity. Qed.

Example decode_malformed :
  DecodeString "a2V5=" = Err (ErrExternal "illegal base64 data").
Proof. reflexivity. Qed.

(** Account IDs are printed in hexadecimal. *)
Example FormatInt16_255 : FormatInt16 255 = "ff".
Proof. reflexivity. Qed.

(** C3, counterexample.  Account 1 is registered under the fingerprint of
    its key [Ka].  Changing its key to [Ka] again, the new fingerprint maps
    to the account itself, and the claim says that the call succeeds; the
    code returns [ExistingAccountError] carrying account 1. *)
Lemma C3_counterexample_own_key :
  accountsByKeyID (store worldA) !! "Ka" = Some 1%nat
  ∧ keyToID (PtrJSONWebKey (Some (jwk "Ka"))) = Ok "Ka"
  ∧ ChangeAccountKey 1%nat (Some (jwk "Ka")) worldA
    = Returns (Err (ExistingAccountError 1%nat)) worldA
  ∧ ¬ ∃ w', ChangeAccountKey 1%nat (Some (jwk "Ka")) worldA
            = Returns (Ok ()) w'.
Proof.
  split; [reflexivity|]. split; [reflexivity|].
  assert (ChangeAccountKey 1%nat (Some (jwk "Ka")) worldA
          = Returns (Err (ExistingAccountError 1%nat)) worldA) as Hrun
    by (reflexivity).
  split; [done|]. intros [w' Hw']. rewrite Hrun in Hw'. discriminate.
Qed.

(** With accounts 1 and 2 registered, changing the key of account 1 to the
    key of account 2 is refused and the error carries account 2. *)
Lemma C3_ChangeAccountKey_conflict_witness :
  accounts (heap worldAB) !! 1%nat = Some (mkAccount "0" (Some (jwk "Ka")))
  ∧ keyToID (PtrJSONWebKey (Some (jwk "Ka"))) = Ok "Ka"
  ∧ keyToID (PtrJSONWebKey (Some (jwk "Kb"))) = Ok "Kb"
  ∧ ChangeAccountKey 1%nat (Some (jwk "Kb")) worldAB
    = Returns (Err (ExistingAccountError 2%nat)) worldAB.
Proof.
  assert (accounts (heap worldAB) !! 1%nat
          = Some (mkAccount "0" (Some (jwk "Ka")))) as Ha
    by (reflexivity).
  assert (keyToID (PtrJSONWebKey (Some (jwk "Ka"))) = Ok "Ka") as Hold
    by (reflexivity).
  assert (keyToID (PtrJSONWebKey (Some (jwk "Kb"))) = Ok "Kb") as Hnew
    by (reflexivity).
  split; [exact Ha|]. split; [exact Hold|]. split; [exact Hnew|].
  refine (proj1 (proj1 (C3_ChangeAccountKey_conflict worldAB 1%nat
                          (Some (jwk "Kb")) _ "Ka" "Kb" Ha Hold Hnew)
                   2%nat _)).
  reflexivity.
Defined.

(** Account 3 holds the key of the registered account 1: adding it is
    refused and account 1 stays as it was. *)
Lemma C5_AddAccount_key_conflict_witness :
  AddAccount 1 1%nat world1 = Returns (Ok 1%Z) worldA
  ∧ ∃ w2, AddAccount 1 3%nat worldA = Returns (Err ErrAccountKeyExists) w2
      ∧ accountsByID (store w2) = accountsByID (store worldA)
      ∧ accountsByKeyID (store w2) = accountsByKeyID (store worldA)
      ∧ GetAccountByID "0" w2 = Returns (Some 1%nat) w2
      ∧ GetAccountByKey (PtrJSONWebKey (Some (jwk "Ka"))) w2
        = Returns (Ok (Some 1%nat)) w2.
Proof.
  assert (AddAccount 1 1%nat world1 = Returns (Ok 1%Z) worldA) as Hadd
    by (reflexivity).
  split; [exact Hadd|].
  destruct (C5_AddAccount_key_conflict 1 1 world1 worldA 1%nat 3%nat 1%Z
              (mkAccount "0" (Some (jwk "Ka")))
              (mkAccount EmptyString (Some (jwk "Ka"))) "Ka" "1" 2%nat Hadd)
    as (w2 & Hrun & _ & _ & HbyID & HbyKey & _ & Hget & HgetKey);
    try (reflexivity).
  exists w2. repeat split; assumption.
Defined.

(** C4, counterexample.  Certificate 1, with the ID [c1], is in the live
    index and not in the revoked index.  The claim says that the ID's presence
    in the live index blocks its insertion into the revoked index;
    [RevokeCertificate] of a revoked certificate that wraps certificate 1
    returns and the ID [c1] is then a key of both indices. *)
Lemma C4_counterexample_revoke_live :
  certificatesByID (store worldC) !! "c1" = Some 1%nat
  ∧ revokedCertificatesByID (store worldC) !! "c1" = None
  ∧ (∃ w', RevokeCertificate 1%nat worldC = Returns () w'
       ∧ certificatesByID (store w') !! "c1" = Some 1%nat
       ∧ revokedCertificatesByID (store w') !! "c1" = Some 1%nat)
  ∧ ¬ (∀ w', RevokeCertificate 1%nat worldC = Returns () w' →
             revokedCertificatesByID (store w') !! "c1" = None).
Proof.
  split; [reflexivity|]. split; [reflexivity|].
  assert (∃ w', RevokeCertificate 1%nat worldC = Returns () w'
            ∧ certificatesByID (store w') !! "c1" = Some 1%nat
            ∧ revokedCertificatesByID (store w') !! "c1" = Some 1%nat)
    as (w' & Hrun & Hlive & Hrev).
  { eexists. split; [reflexivity|]. split; reflexivity. }
  split; [by exists w'|].
  intros Hblocks. specialize (Hblocks w' Hrun).
  discriminate (eq_trans (eq_sym Hrev) Hblocks).
Qed.

(** Certificate 1 has been revoked without being in the live index: adding
    it is refused with a conflict error and the world stays the same. *)
Lemma C4_AddCertificate_shared_namespace_witness :
  certificates (heap worldR) !! 1%nat
    = Some (mkCertificate "c1" [] 7 EmptyString)
  ∧ "c1" ≠ EmptyString
  ∧ revokedCertificatesByID (store worldR) !! "c1" = Some 1%nat
  ∧ ∃ e, AddCertificate 1%nat worldR = Returns (Err e) worldR
         ∧ kind_of e = Conflict.
Proof.
  assert (certificates (heap worldR) !! 1%nat
          = Some (mkCertificate "c1" [] 7 EmptyString)) as Hc
    by (reflexivity).
  assert ("c1" ≠ EmptyString) as Hne by discriminate.
  assert (revokedCertificatesByID (store worldR) !! "c1" = Some 1%nat) as Hrev
    by (reflexivity).
  split; [exact Hc|]. split; [exact Hne|]. split; [exact Hrev|].
  apply (proj1 (C4_AddCertificate_shared_namespace worldR 1%nat _ Hc Hne)).
  right. exists 1%nat. exact Hrev.
Defined.


(** Reading order 1 stores the status its state machine computes; reading
    order 3, whose status computation fails, panics. *)
Example GetOrderByID_runs :
  (∃ w', GetOrderByID "o1" worldO = Returns (Some 1%nat) w'
         ∧ Order_Status <$> orders (heap w') !! 1%nat = Some "ready")
  ∧ GetOrderByID "o3" (after (AddOrder 3%nat world1)) = Panics
  ∧ GetOrdersByAccountID "0" (after (AddOrder 3%nat worldO)) = Panics.
Proof.
  split; [eexists; split; reflexivity|]. split; reflexivity.
Qed.

(** With orders 1 and 2 added, both reads return them with the status their
    state machine computes written into [Status]. *)
Lemma C8_order_status_recomputed_on_read_witness :
  ordersByID (store worldOO) !! "o1" = Some 1%nat
  ∧ orders (heap worldOO) !! 1%nat
    = Some (mkOrder "o1" "0" "pending" false 1%nat (Some "ready"))
  ∧ (∃ w', GetOrderByID "o1" worldOO = Returns (Some 1%nat) w'
       ∧ orders (heap w') !! 1%nat
         = Some (mkOrder "o1" "0" "ready" false 1%nat (Some "ready")))
  ∧ ordersByAccountID (store worldOO) !! "0" = Some [1%nat; 2%nat]
  ∧ (∃ w', GetOrdersByAccountID "0" worldOO = Returns (Some [1%nat; 2%nat]) w'
       ∧ orders (heap w') !! 1%nat
         = Some (mkOrder "o1" "0" "ready" false 1%nat (Some "ready"))
       ∧ orders (heap w') !! 2%nat
         = Some (mkOrder "o2" "0" "valid" false 1%nat (Some "valid"))).
Proof.
  assert (ordersByID (store worldOO) !! "o1" = Some 1%nat) as Hid
    by reflexivity.
  assert (orders (heap worldOO) !! 1%nat
          = Some (mkOrder "o1" "0" "pending" false 1%nat (Some "ready")))
    as Ho1 by reflexivity.
  assert (orders (heap worldOO) !! 2%nat
          = Some (mkOrder "o2" "0" "pending" false 1%nat (Some "valid")))
    as Ho2 by reflexivity.
  assert (ordersByAccountID (store worldOO) !! "0" = Some [1%nat; 2%nat])
    as Hl by reflexivity.
  destruct (C8_order_status_recomputed_on_read worldOO)
    as (_ & Hread & _ & _ & _ & Hlist & _).
  split; [exact Hid|]. split; [exact Ho1|]. split.
  - destruct (Hread "o1" 1%nat _ "ready" Hid Ho1 eq_refl) as (w' & Hrun & Hst & _).
    exists w'. split; [exact Hrun | exact Hst].
  - split; [exact Hl|].
    destruct (Hlist "0" [1%nat; 2%nat] Hl) as (w' & Hrun & _ & Heach).
    + apply NoDup_cons. split; [|apply NoDup_singleton].
      intros Hin%list_elem_of_singleton. discriminate Hin.
    + intros order [->|Hin]%elem_of_cons.
      * eexists _, "ready". split; [exact Ho1 | reflexivity].
      * apply list_elem_of_singleton in Hin as ->.
        eexists _, "valid". split; [exact Ho2 | reflexivity].
    + assert (1%nat ∈ [1%nat; 2%nat]) as Hin1
        by (apply elem_of_cons; by left).
      assert (2%nat ∈ [1%nat; 2%nat]) as Hin2
        by (apply elem_of_cons; right; by apply list_elem_of_singleton).
      exists w'. split; [exact Hrun|]. split.
      * exact (Heach 1%nat _ "ready" Hin1 Ho1 eq_refl).
      * exact (Heach 2%nat _ "valid" Hin2 Ho2 eq_refl).
Defined.

(** Certificate 1 is live; revoking it leaves it retrievable. *)
Lemma C9_RevokeCertificate_frame_witness :
  revokedCertificates (heap worldC) !! 1%nat = Some (mkRevokedCertificate 1%nat)
  ∧ certificates (heap worldC) !! 1%nat
    = Some (mkCertificate "c1" [] 7 EmptyString)
  ∧ GetCertificateByID "c1" worldC = Returns (Some 1%nat) worldC
  ∧ ∃ w', RevokeCertificate 1%nat worldC = Returns () w'
      ∧ GetCertificateByID "c1" w' = Returns (Some 1%nat) w'
      ∧ revokedCertificatesByID (store w') !! "c1" = Some 1%nat.
Proof.
  assert (revokedCertificates (heap worldC) !! 1%nat
          = Some (mkRevokedCertificate 1%nat)) as Hrc
    by (reflexivity).
  assert (certificates (heap worldC) !! 1%nat
          = Some (mkCertificate "c1" [] 7 EmptyString)) as Hc
    by (reflexivity).
  split; [exact Hrc|]. split; [exact Hc|].
  split; [reflexivity|].
  destruct (C9_RevokeCertificate_frame worldC 1%nat _ _ Hrc Hc)
    as (w' & Hrun & _ & Hrev & _ & _ & Hget & _).
  exists w'. split; [exact Hrun|]. split; [|exact Hrev].
  rewrite (Hget "c1"). reflexivity.
Defined.

(** Order 1 is indexed under [c1]; indexing order 2, issued the same
    certificate, succeeds and takes its place. *)
Lemma C10_AddOrderByIssuedSerial_overwrites_witness :
  orders (heap worldS) !! 2%nat
    = Some (mkOrder "o2" "0" "pending" false 1%nat (Some "valid"))
  ∧ certificates (heap worldS) !! 1%nat
    = Some (mkCertificate "c1" [] 7 EmptyString)
  ∧ GetOrderByIssuedSerial "c1" worldS = Returns (Ok 1%nat) worldS
  ∧ ∃ w', AddOrderByIssuedSerial 2%nat worldS = Returns (Ok ()) w'
      ∧ GetOrderByIssuedSerial "c1" w' = Returns (Ok 2%nat) w'
      ∧ GetOrderByIssuedSerial "c1" w' ≠ Returns (Ok 1%nat) w'.
Proof.
  assert (orders (heap worldS) !! 2%nat
          = Some (mkOrder "o2" "0" "pending" false 1%nat (Some "valid")))
    as Ho by (reflexivity).
  assert (certificates (heap worldS) !! 1%nat
          = Some (mkCertificate "c1" [] 7 EmptyString)) as Hc
    by (reflexivity).
  split; [exact Ho|]. split; [exact Hc|].
  split; [reflexivity|].
  destruct (C10_AddOrderByIssuedSerial_overwrites worldS 2%nat _ _ Ho Hc)
    as (w' & Hrun & _ & _ & Hget & Hprev & _).
  exists w'. split; [exact Hrun|]. split; [exact Hget|].
  apply (Hprev 1%nat); [reflexivity | discriminate].
Defined.

(** The key store on the key ID [kid1]: the first add stores the decoded
    bytes, a second add is refused and the bytes stay. *)
Example external_account_key_runs :
  AddExternalAccountKeyByID "kid1" "a2V5" world1 = Returns (Ok ()) worldK
  ∧ GetExtenalAccountKeyByID "kid1" worldK
    = Returns (Some (list_byte_of_string "key")) worldK
  ∧ AddExternalAccountKeyByID "kid1" "b3RoZXI" worldK
    = Returns (Err (ErrEABPresent "kid1")) worldK
  ∧ AddExternalAccountKeyByID "kid2" "a2V5=" worldK
    = Returns (Err (ErrEABDecode "a2V5=" (ErrExternal "illegal base64 data")))
        worldK
  ∧ AddExternalAccountKeyByID "kid2" EmptyString worldK
    = Returns (Err ErrEABEmpty) worldK.
Proof. repeat split; reflexivity. Qed.

End Runs.

(** ** More on the block list *)

Lemma Split_cons (c : ascii) (s : string) :
  Split (String c s)
  = if Ascii.eqb c "."%char then EmptyString :: Split s
    else match Split s with
         | h :: t => String c h :: t
         | [] => [String c EmptyString]
         end.
Proof. done. Qed.

(** Splitting at the dots and joining with dots gives the string back. *)
Lemma Join_Split (s : string) : Join (Split s) = s.
Proof.
  induction s as [|c s IH]; [done|]. rewrite Split_cons.
  pose proof (Split_not_nil s) as Hnil.
  destruct (Split s) as [|h t] eqn:Hs; [done|].
  destruct (Ascii.eqb_spec c "."%char) as [->|Hc].
  - change (Join (EmptyString :: h :: t)) with ("." +:+ Join (h :: t)).
    by rewrite IH.
  - destruct t as [|h' t]; simpl in *; by rewrite <- IH.
Qed.

(** Splitting a name that has a dot in it: the labels on its left, then the
    labels on its right. *)
Lemma Split_app_dot (a b : string) :
  Split (a +:+ "." +:+ b) = Split a ++ Split b.
Proof.
  induction a as [|c a IH]; [done|].
  change (String c a +:+ "." +:+ b) with (String c (a +:+ "." +:+ b)).
  rewrite !Split_cons, IH.
  destruct (Ascii.eqb c "."%char); [done|].
  pose proof (Split_not_nil a) as Hnil.
  by destruct (Split a).
Qed.

Lemma scanBlockList_app (l1 l2 : list (list string)) (query : list string) :
  scanBlockList (l1 ++ l2) query
  = match scanBlockList l1 query with
    | Some false => scanBlockList l2 query
    | r => r
    end.
Proof.
  induction l1 as [|e l1 IH]; simpl; [done|].
  by destruct (matchParts 0 e query) as [[|]|].
Qed.

(** X1.  The label list that [AddBlockedDomain] stores and [IsDomainBlocked]
    compares against is the list of the name's labels in reverse order: the
    two-index swap loop reverses the slice that [strings.Split] returns,
    whatever its length, and keeps every label. *)
Theorem domainParts_reversed_labels (name : string) :
  domainParts name = reverse (Split name)
  ∧ length (domainParts name) = length (Split name)
  ∧ Join (reverse (domainParts name)) = name.
Proof.
  assert (domainParts name = reverse (Split name)) as Hrev.
  { unfold domainParts, reverseParts.
    pose proof (reverse_loop_spec (length (Split name)) [] (Split name) [])
      as Hloop.
    simpl in Hloop. rewrite !app_nil_r in Hloop. by apply Hloop. }
  rewrite Hrev. split; [done|]. split; [apply length_reverse|].
  by rewrite reverse_involutive, Join_Split.
Qed.

Section BlockListMore.
Context `{SM : StatusMachine}.

(** X2.  [IsDomainBlocked] never changes the world; when it returns, it answers
    [true] exactly when the reversed labels of some stored entry are a prefix
    of the query's reversed labels. *)
Theorem IsDomainBlocked_returns (w w' : World) (name : string) (b : bool) :
  IsDomainBlocked name w = Returns b w' →
  w' = w
  ∧ (b = true ↔ ∃ entry, entry ∈ blockListByDomain (store w)
                         ∧ entry `prefix_of` reverse (Split name)).
Proof.
  unfold IsDomainBlocked, domainParts. rewrite reverseParts_reverse.
  destruct (scanBlockList _ _) as [r|] eqn:Hscan; [|done].
  intros [= <- <-]. split; [done|]. by apply scanBlockList_returns.
Qed.

(** X3.  [IsDomainBlocked] panics exactly when the scan reaches, before any entry
    that matches, an entry with more labels than the query whose first
    labels are the query's. *)
Theorem IsDomainBlocked_panics_iff (w : World) (name : string) :
  IsDomainBlocked name w = Panics
  ↔ ∃ l1 entry l2,
      blockListByDomain (store w) = l1 ++ entry :: l2
      ∧ Forall (λ x, ¬ x `prefix_of` reverse (Split name)
                     ∧ ¬ (reverse (Split name) `prefix_of` x
                          ∧ (length (Split name) < length x)%nat)) l1
      ∧ reverse (Split name) `prefix_of` entry
      ∧ (length (Split name) < length entry)%nat.
Proof.
  unfold IsDomainBlocked, domainParts. rewrite reverseParts_reverse.
  assert (∀ x, matchParts 0 x (reverse (Split name)) = Some false
               ↔ ¬ x `prefix_of` reverse (Split name)
                 ∧ ¬ (reverse (Split name) `prefix_of` x
                      ∧ (length (Split name) < length x)%nat)) as Hfalse.
  { intros x.
    pose proof (matchParts_true x (reverse (Split name))) as Ht.
    pose proof (matchParts_panics x (reverse (Split name))) as Hp.
    rewrite length_reverse in Hp.
    destruct (matchParts 0 x (reverse (Split name))) as [[|]|].
    - split; [done|]. intros [Hn _]. destruct Hn. by apply Ht.
    - split; [|done]. intros _. split.
      + intros Hx. by apply Ht in Hx.
      + intros Hx. by apply Hp in Hx.
    - split; [done|]. intros [_ Hn]. destruct Hn. by apply Hp. }
  destruct (scanBlockList _ _) as [r|] eqn:Hscan.
  - split; [done|]. intros (l1 & entry & l2 & Heq & Hall & Hpre & Hlt).
    assert (scanBlockList (blockListByDomain (store w))
              (reverse (Split name)) = None) as Hnone; [|congruence].
    apply scanBlockList_panics. exists l1, entry, l2.
    rewrite length_reverse. split; [done|]. split; [|done].
    eapply Forall_impl; [exact Hall|]. intros x Hx. by apply Hfalse.
  - split; [|done]. intros _.
    apply scanBlockList_panics in Hscan
      as (l1 & entry & l2 & Heq & Hall & Hpre & Hlt).
    rewrite length_reverse in Hlt. exists l1, entry, l2.
    split; [done|]. split; [|done].
    eapply Forall_impl; [exact Hall|]. intros x Hx. by apply Hfalse.
Qed.

(** X4.  [AddBlockedDomain] refuses only the empty name; otherwise it appends one
    entry, from which the name can be read back, and changes nothing else. *)
Theorem AddBlockedDomain_appends (w : World) (name : string) :
  (name = EmptyString →
     AddBlockedDomain name w = Returns (Err ErrBlockedDomainEmpty) w)
  ∧ (name ≠ EmptyString →
     ∃ entry w', AddBlockedDomain name w = Returns (Ok ()) w'
       ∧ blockListByDomain (store w') = blockListByDomain (store w) ++ [entry]
       ∧ Join (reverse entry) = name
       ∧ heap w' = heap w
       ∧ set_blockListByDomain (blockListByDomain (store w)) (store w')
         = store w).
Proof.
  unfold AddBlockedDomain. split.
  - by intros ->.
  - intros Hne%is_empty_false. rewrite Hne.
    exists (domainParts name). eexists. split; [reflexivity|]. simpl.
    split; [done|]. split.
    + unfold domainParts. by rewrite reverseParts_reverse, reverse_involutive,
        Join_Split.
    + split; [done|]. by destruct w as [? []].
Qed.

(** X5.  After [AddBlockedDomain name], a query for the name or for any name
    below it is answered [true], unless the scan of the entries that were
    there before already panics; it is never answered [false]. *)
Theorem AddBlockedDomain_blocks_subdomains (w w' : World)
    (name query : string) :
  AddBlockedDomain name w = Returns (Ok ()) w' →
  query = name ∨ (∃ sub, query = sub +:+ "." +:+ name) →
  IsDomainBlocked query w'
  = match IsDomainBlocked query w with
    | Returns _ _ => Returns true w'
    | Panics => Panics
    | OutOfFuel => OutOfFuel
    end.
Proof.
  unfold AddBlockedDomain. destruct (is_empty name); [done|].
  intros [= <-] Hq. unfold IsDomainBlocked. simpl.
  rewrite scanBlockList_app.
  assert (matchParts 0 (domainParts name) (domainParts query) = Some true)
    as Hmatch.
  { apply matchParts_true. unfold domainParts.
    rewrite !reverseParts_reverse. destruct Hq as [->|[sub ->]]; [done|].
    rewrite Split_app_dot, reverse_app. by apply prefix_app_r. }
  destruct (scanBlockList (blockListByDomain (store w)) (domainParts query))
    as [[|]|]; [done| |done].
  simpl. by rewrite Hmatch.
Qed.

(** The block list only grows at its end. *)
Lemma step_blockList_prefix (w w' : World) :
  step w w' →
  blockListByDomain (store w) `prefix_of` blockListByDomain (store w').
Proof.
  intros Hstep. destruct Hstep;
    match goal with
    | Hcall : _ = Returns _ _ |- _ =>
        unfold GetAccountByID, GetAccountByKey, UpdateReplacedOrder,
          GetOrderByIssuedSerial, UpdateAccountByID, AddAccount,
          ChangeAccountKey, AddOrder, AddOrderByIssuedSerial,
          GetOrderByID, GetOrdersByAccountID, AddAuthorization,
          GetAuthorizationByID, AddChallenge, GetChallengeByID,
          AddCertificate, GetCertificateByID, RevokeCertificate,
          SetARIResponse, AddExternalAccountKeyByID,
          GetExtenalAccountKeyByID, AddBlockedDomain, IsDomainBlocked
          in Hcall
    end;
    repeat (simplify_eq/=; try done;
            match goal with
            | Hcall : ?call = Returns _ _ |- _ =>
                match call with
                | context [match ?x with _ => _ end] =>
                    let E := fresh "E" in destruct x eqn:E
                end
            end);
    simplify_eq/=; try done.
  by apply prefix_app_r.
Qed.

(** X6.  A name reported blocked stays blocked, and a query that panics keeps
    panicking, whatever the store is asked to do afterwards: no operation
    removes or reorders entries. *)
Theorem IsDomainBlocked_verdict_persists (w w' : World) (name : string) :
  later_state w w' →
  (IsDomainBlocked name w = Returns true w →
   IsDomainBlocked name w' = Returns true w')
  ∧ (IsDomainBlocked name w = Panics → IsDomainBlocked name w' = Panics).
Proof.
  intros Hlater.
  assert (blockListByDomain (store w) `prefix_of` blockListByDomain (store w'))
    as [more Hmore].
  { induction Hlater as [|w1 w2 w3 Hstep _ IH]; [done|].
    etrans; [by apply step_blockList_prefix | done]. }
  unfold IsDomainBlocked. rewrite Hmore, scanBlockList_app.
  destruct (scanBlockList (blockListByDomain (store w)) (domainParts name))
    as [[|]|]; by split.
Qed.

End BlockListMore.

(** ** Invariants of runs *)

(** Opens the operation in the hypothesis of a step. *)
Ltac unfold_call Hcall :=
  unfold GetAccountByID, GetAccountByKey, UpdateReplacedOrder,
    GetOrderByIssuedSerial, UpdateAccountByID, AddAccount,
    ChangeAccountKey, AddOrder, AddOrderByIssuedSerial,
    GetOrderByID, GetOrdersByAccountID, AddAuthorization,
    GetAuthorizationByID, AddChallenge, GetChallengeByID,
    AddCertificate, GetCertificateByID, RevokeCertificate,
    SetARIResponse, AddExternalAccountKeyByID,
    GetExtenalAccountKeyByID, AddBlockedDomain, IsDomainBlocked
    in Hcall.

(** Splits on every test that a call which returned has made. *)
Ltac split_call :=
  repeat (simplify_eq/=; try done;
          match goal with
          | Hcall : ?call = Returns _ _ |- _ =>
              match call with
              | context [match ?x with _ => _ end] =>
                  let E := fresh "E" in destruct x eqn:E
              end
          end);
  simplify_eq/=; try done.

(** One case for each way in which each operation can return. *)
Ltac step_cases Hstep :=
  destruct Hstep;
  match goal with
  | Hcall : _ = Returns _ _ |- _ => unfold_call Hcall
  end;
  split_call.

Section Invariants.
Context `{SM : StatusMachine}.

Lemma refreshStatuses_alloc (l : list loc) (os os' : gmap loc Order)
    (p : loc) :
  refreshStatuses l os = Some os' → is_Some (os' !! p) ↔ is_Some (os !! p).
Proof.
  revert os. induction l as [|q l IH]; intros os; simpl.
  - by intros [= ->].
  - destruct (os !! q) as [oq|] eqn:Hq; [|done].
    destruct (GetStatus oq) as [st|]; [|done].
    intros Hr. rewrite (IH _ Hr), lookup_insert_is_Some'.
    split; [|by right]. intros [->|Hp]; [by eexists | done].
Qed.

(** The status loop changes no field of an order but [Status]. *)
Lemma refreshStatuses_same_but_Status (l : list loc) (os os' : gmap loc Order)
    (p : loc) (o : Order) :
  refreshStatuses l os = Some os' → os !! p = Some o →
  ∃ o', os' !! p = Some o' ∧ same_but_Status o o'.
Proof.
  revert os o. induction l as [|q l IH]; intros os o; simpl.
  - intros [= ->] Hp. by exists o.
  - destruct (os !! q) as [oq|] eqn:Hq; [|done].
    destruct (GetStatus oq) as [st|]; [|done].
    intros Hr Hp. destruct (decide (q = p)) as [->|Hne].
    + rewrite Hq in Hp. injection Hp as ->.
      destruct (IH _ (set_Order_Status st o) Hr) as (o' & Ho' & Hs);
        [by rewrite lookup_insert_eq|].
      exists o'. split; [done|]. unfold same_but_Status in *.
      by rewrite <- Hs.
    + apply (IH _ o Hr). by rewrite lookup_insert_ne.
Qed.

Lemma setARIFirst_changes (iter : list (string * loc)) (serial : Z)
    (ariResponse : string) (cs cs' : gmap loc Certificate) :
  setARIFirst iter serial ariResponse cs = Some (Some cs') →
  ∃ id cert c, (id, cert) ∈ iter ∧ cs !! cert = Some c
    ∧ Certificate_SerialNumber c = serial
    ∧ cs' = <[cert:=set_Certificate_ARIResponse ariResponse c]> cs.
Proof.
  induction iter as [|[id cert] iter IH]; simpl; [done|].
  destruct (cs !! cert) as [c|] eqn:Hc; [|done].
  case_decide as Hs.
  - intros [= <-]. exists id, cert, c. split; [apply elem_of_cons; by left|done].
  - intros Hr. destruct (IH Hr) as (id' & cert' & c' & Hin & ?).
    exists id', cert', c'. split; [apply elem_of_cons; by right|done].
Qed.

(** No operation frees an object or allocates one: the allocated locations
    stay what they are, and revoked certificates, authorizations and
    challenges are not even written to. *)
Lemma step_alloc (w w' : World) :
  step w w' →
  (∀ p, is_Some (accounts (heap w') !! p) ↔ is_Some (accounts (heap w) !! p))
  ∧ (∀ p, is_Some (orders (heap w') !! p) ↔ is_Some (orders (heap w) !! p))
  ∧ (∀ p, is_Some (certificates (heap w') !! p)
          ↔ is_Some (certificates (heap w) !! p))
  ∧ revokedCertificates (heap w') = revokedCertificates (heap w)
  ∧ authorizations (heap w') = authorizations (heap w)
  ∧ challenges (heap w') = challenges (heap w).
Proof.
  intros Hstep. step_cases Hstep;
    split_and!; try done; intros q;
    rewrite ?lookup_insert_is_Some';
    try (split; [intros [->|?]|]; by eauto).
  - by eapply refreshStatuses_alloc.
  - match goal with
    | Hs : setARIFirst _ _ _ _ = Some (Some _) |- _ =>
        apply setARIFirst_changes in Hs as (id & cert & c & _ & Hc & _ & ->)
    end.
    rewrite lookup_insert_is_Some'. split; [intros [->|?]|]; by eauto.
Qed.

(** Reads the entries of updated indices and objects in the hypotheses. *)
Ltac open_lookups :=
  repeat match goal with
    | Hl : <[_:=_]> _ !! _ = Some _ |- _ =>
        apply lookup_insert_Some in Hl as [[<- <-]|[? Hl]]
    | Hl : delete _ _ !! _ = Some _ |- _ =>
        apply lookup_delete_Some in Hl as [? Hl]
    | Hl : _ ∈ _ ++ [_] |- _ =>
        apply elem_of_app in Hl as [Hl| ->%list_elem_of_singleton]
    | Hl : _ ∈ [] |- _ => by apply elem_of_nil in Hl
    end.

(** No operation stores a nil pointer: each dereferences its argument
    before it enters it into an index. *)
Lemma step_no_nil_entries (w w' : World) :
  step w w' → no_nil_entries w → no_nil_entries w'.
Proof.
  intros Hstep (H1 & H2 & H3 & H4 & H5 & H6 & H7 & H8 & H9).
  step_cases Hstep;
    try match goal with
      | Hs : setARIFirst _ _ _ _ = Some (Some _) |- _ =>
          apply setARIFirst_changes in Hs as (? & ? & ? & _ & ? & _ & ->)
      end;
    unfold no_nil_entries, points_into in *; simpl;
    split_and!; try done; intros; repeat case_match; open_lookups;
    rewrite ?lookup_insert_is_Some';
    try (erewrite refreshStatuses_alloc by done);
    eauto 7.
  match goal with
  | Hl : revokedCertificatesByID _ !! _ = Some _ |- _ =>
      destruct (H9 _ _ Hl) as (rc & Hrc & Hc)
  end.
  exists rc. split; [done|]. rewrite lookup_insert_is_Some'. by right.
Qed.

Lemma later_state_no_nil_entries (w w' : World) :
  later_state w w' → no_nil_entries w → no_nil_entries w'.
Proof.
  induction 1 as [|w1 w2 w3 Hstep _ IH]; [done|].
  intros H1. apply IH. by apply (step_no_nil_entries w1).
Qed.

(** A store that started empty never holds a nil pointer. *)
Lemma reachable_no_nil_entries (w : World) : reachable w → no_nil_entries w.
Proof.
  intros (h & r & Hlater).
  apply (later_state_no_nil_entries _ _ Hlater).
  unfold no_nil_entries, points_into. simpl.
  split_and!; intros; by simplify_map_eq.
Qed.

Lemma refreshStatuses_panics (l : list loc) (os : gmap loc Order) :
  (∀ p, p ∈ l → is_Some (os !! p)) → refreshStatuses l os = None →
  ∃ p o0 o e, p ∈ l ∧ os !! p = Some o0 ∧ same_but_Status o0 o
              ∧ GetStatus o = Err e.
Proof.
  revert os. induction l as [|q l IH]; intros os Hall; simpl; [done|].
  destruct (Hall q) as [oq Hq]; [apply elem_of_cons; by left|]. rewrite Hq.
  destruct (GetStatus oq) as [st|e] eqn:Hst.
  - intros Hr.
    destruct (IH (<[q:=set_Order_Status st oq]> os))
      as (p & o0 & o & e & Hin & Hp & Hs & He); [|done|].
    { intros p Hp. rewrite lookup_insert_is_Some'. right.
      apply Hall, elem_of_cons. by right. }
    destruct (decide (q = p)) as [->|Hne].
    + rewrite lookup_insert_eq in Hp. injection Hp as <-.
      exists p, oq, o, e. split; [apply elem_of_cons; by right|].
      split; [done|]. split; [|done]. unfold same_but_Status in *.
      by rewrite <- Hs.
    + rewrite lookup_insert_ne in Hp by done.
      exists p, o0, o, e. split; [apply elem_of_cons; by right | done].
  - intros _. exists q, oq, oq, e. split; [apply elem_of_cons; by left | done].
Qed.

Lemma findCertificateBySerial_total (iter : list (string * loc))
    (serialNumber : Z) (cs : gmap loc Certificate) :
  (∀ id p, (id, p) ∈ iter → is_Some (cs !! p)) →
  is_Some (findCertificateBySerial iter serialNumber cs).
Proof.
  induction iter as [|[id cert] iter IH]; intros Hall; simpl; [by eexists|].
  destruct (Hall id cert) as [c ->]; [apply elem_of_cons; by left|].
  case_decide; [by eexists|]. apply IH. intros id' p Hin.
  apply (Hall id'), elem_of_cons. by right.
Qed.

Lemma findRevokedCertificateBySerial_total (iter : list (string * loc))
    (serialNumber : Z) (rcs : gmap loc RevokedCertificate)
    (cs : gmap loc Certificate) :
  (∀ id p, (id, p) ∈ iter →
     ∃ rc, rcs !! p = Some rc
           ∧ is_Some (cs !! RevokedCertificate_Certificate rc)) →
  is_Some (findRevokedCertificateBySerial iter serialNumber rcs cs).
Proof.
  induction iter as [|[id cert] iter IH]; intros Hall; simpl; [by eexists|].
  destruct (Hall id cert) as (rc & -> & [c ->]); [apply elem_of_cons; by left|].
  case_decide; [by eexists|]. apply IH. intros id' p Hin.
  apply (Hall id'), elem_of_cons. by right.
Qed.

Lemma setARIFirst_total (iter : list (string * loc)) (serial : Z)
    (ariResponse : string) (cs : gmap loc Certificate) :
  (∀ id p, (id, p) ∈ iter → is_Some (cs !! p)) →
  is_Some (setARIFirst iter serial ariResponse cs).
Proof.
  induction iter as [|[id cert] iter IH]; intros Hall; simpl; [by eexists|].
  destruct (Hall id cert) as [c ->]; [apply elem_of_cons; by left|].
  case_decide; [by eexists|]. apply IH. intros id' p Hin.
  apply (Hall id'), elem_of_cons. by right.
Qed.

(** The entries a [range] clause yields are the entries of the map. *)
Lemma range_entries {V : Type} (iter : list (string * V)) (m : gmap string V)
    (id : string) (v : V) :
  iter ≡ₚ map_to_list m → (id, v) ∈ iter ↔ m !! id = Some v.
Proof. intros ->. apply elem_of_map_to_list. Qed.

(** X7.  In a store that started empty, a lookup by ID returns nil or a pointer to
    an allocated object, never a stored nil pointer. *)
Theorem reachable_lookups_allocated (w : World) (id : string) (p : loc) :
  reachable w →
  (GetAccountByID id w = Returns (Some p) w
     → is_Some (accounts (heap w) !! p))
  ∧ (GetOrderByIssuedSerial id w = Returns (Ok p) w
     → is_Some (orders (heap w) !! p))
  ∧ (GetAuthorizationByID id w = Returns (Some p) w
     → is_Some (authorizations (heap w) !! p))
  ∧ (GetChallengeByID id w = Returns (Some p) w
     → is_Some (challenges (heap w) !! p))
  ∧ (GetCertificateByID id w = Returns (Some p) w
     → is_Some (certificates (heap w) !! p)).
Proof.
  intros (H1 & H2 & H3 & H4 & H5 & H6 & H7 & H8 & H9)%reachable_no_nil_entries.
  unfold points_into in *. split_and!.
  - intros [= Hl]. by apply (H1 id).
  - unfold GetOrderByIssuedSerial.
    destruct (ordersByIssuedSerial (store w) !! id) eqn:Hl; [|done].
    intros [= <-]. by apply (H3 id).
  - intros [= Hl]. by apply (H6 id).
  - intros [= Hl]. by apply (H7 id).
  - intros [= Hl]. by apply (H8 id).
Qed.

Lemma reachable_no_nil_dereference (w : World) :
  reachable w →
  (∀ serial b, UpdateReplacedOrder serial b w ≠ Panics)
  ∧ (∀ iter serial ariResponse,
       iter ≡ₚ map_to_list (certificatesByID (store w)) →
       SetARIResponse iter serial ariResponse w ≠ Panics)
  ∧ (∀ iter serial,
       iter ≡ₚ map_to_list (certificatesByID (store w)) →
       GetCertificateBySerial iter serial w ≠ Panics)
  ∧ (∀ iter serial,
       iter ≡ₚ map_to_list (revokedCertificatesByID (store w)) →
       GetRevokedCertificateBySerial iter serial w ≠ Panics)
  ∧ (∀ id, GetOrderByID id w = Panics →
       ∃ order o e, ordersByID (store w) !! id = Some order
                    ∧ orders (heap w) !! order = Some o
                    ∧ GetStatus o = Err e)
  ∧ (∀ accountID, GetOrdersByAccountID accountID w = Panics →
       ∃ l order o0 o e,
         ordersByAccountID (store w) !! accountID = Some l ∧ order ∈ l
         ∧ orders (heap w) !! order = Some o0 ∧ same_but_Status o0 o
         ∧ GetStatus o = Err e).
Proof.
  intros (H1 & H2 & H3 & H4 & H5 & H6 & H7 & H8 & H9)%reachable_no_nil_entries.
  unfold points_into in *. split_and!.
  - intros serial b. unfold UpdateReplacedOrder, GetOrderByIssuedSerial.
    destruct (is_empty serial); [done|].
    destruct (ordersByIssuedSerial (store w) !! serial) as [p|] eqn:Hl; [|done].
    by destruct (H3 _ _ Hl) as [o ->].
  - intros iter serial ariResponse Hiter. unfold SetARIResponse.
    destruct (setARIFirst_total iter serial ariResponse (certificates (heap w)))
      as [[r|] ->]; [|done..].
    intros id p Hin. apply (H8 id). by apply (range_entries iter).
  - intros iter serial Hiter. unfold GetCertificateBySerial.
    destruct (findCertificateBySerial_total iter serial (certificates (heap w)))
      as [r ->]; [|done].
    intros id p Hin. apply (H8 id). by apply (range_entries iter).
  - intros iter serial Hiter. unfold GetRevokedCertificateBySerial.
    destruct (findRevokedCertificateBySerial_total iter serial
                (revokedCertificates (heap w)) (certificates (heap w)))
      as [r ->]; [|done].
    intros id p Hin. apply (H9 id). by apply (range_entries iter).
  - intros id. unfold GetOrderByID.
    destruct (ordersByID (store w) !! id) as [order|] eqn:Hl; [|done].
    destruct (H4 _ _ Hl) as [o Ho]. rewrite Ho.
    destruct (GetStatus o) as [st|e] eqn:Hst; [done|].
    intros _. by exists order, o, e.
  - intros accountID. unfold GetOrdersByAccountID.
    destruct (ordersByAccountID (store w) !! accountID) as [l|] eqn:Hl; [|done].
    destruct (refreshStatuses l (orders (heap w))) eqn:Hr; [done|].
    intros _. apply refreshStatuses_panics in Hr
      as (p & o0 & o & e & Hin & Hp & Hs & He); [|by eauto].
    by exists l, p, o0, o, e.
Qed.

(** X8.  In a store that started empty the operations on orders dereference no
    nil pointer: [UpdateReplacedOrder] never panics, and the two order reads
    panic only when the status computation fails for an order they reach. *)
Theorem reachable_order_reads_panic_only_on_status (w : World) :
  reachable w →
  (∀ serial b, UpdateReplacedOrder serial b w ≠ Panics)
  ∧ (∀ id, GetOrderByID id w = Panics →
       ∃ order o e, ordersByID (store w) !! id = Some order
                    ∧ orders (heap w) !! order = Some o
                    ∧ GetStatus o = Err e)
  ∧ (∀ accountID, GetOrdersByAccountID accountID w = Panics →
       ∃ l order o0 o e,
         ordersByAccountID (store w) !! accountID = Some l ∧ order ∈ l
         ∧ orders (heap w) !! order = Some o0 ∧ same_but_Status o0 o
         ∧ GetStatus o = Err e).
Proof.
  intros (H1 & _ & _ & _ & H5 & H6)%reachable_no_nil_dereference. done.
Qed.

(** X9.  In a store that started empty the loops over the certificate indices
    meet no nil entry: [SetARIResponse] and the two lookups by serial number
    return, in whatever sequence the index is ranged over. *)
Theorem reachable_certificate_scans_return (w : World) :
  reachable w →
  (∀ iter serial ariResponse,
     iter ≡ₚ map_to_list (certificatesByID (store w)) →
     SetARIResponse iter serial ariResponse w ≠ Panics)
  ∧ (∀ iter serial,
       iter ≡ₚ map_to_list (certificatesByID (store w)) →
       GetCertificateBySerial iter serial w ≠ Panics)
  ∧ (∀ iter serial,
       iter ≡ₚ map_to_list (revokedCertificatesByID (store w)) →
       GetRevokedCertificateBySerial iter serial w ≠ Panics).
Proof.
  intros (_ & H2 & H3 & H4 & _)%reachable_no_nil_dereference. done.
Qed.

Lemma step_id_indices_write_once (w w' : World) (id : string) (p : loc) :
  step w w' →
  (ordersByID (store w) !! id = Some p → ordersByID (store w') !! id = Some p)
  ∧ (authorizationsByID (store w) !! id = Some p
     → authorizationsByID (store w') !! id = Some p)
  ∧ (challengesByID (store w) !! id = Some p
     → challengesByID (store w') !! id = Some p)
  ∧ (certificatesByID (store w) !! id = Some p
     → certificatesByID (store w') !! id = Some p).
Proof.
  intros Hstep. step_cases Hstep; split_and!; try done; intros Hl;
    (rewrite lookup_insert_ne; [done | congruence]).
Qed.

(** X10.  The four indices keyed by an object's own ID are write-once: an entry,
    once made, is there with the same value in every later state. *)
Theorem id_indices_write_once (w w' : World) (id : string) (p : loc) :
  later_state w w' →
  (ordersByID (store w) !! id = Some p → ordersByID (store w') !! id = Some p)
  ∧ (authorizationsByID (store w) !! id = Some p
     → authorizationsByID (store w') !! id = Some p)
  ∧ (challengesByID (store w) !! id = Some p
     → challengesByID (store w') !! id = Some p)
  ∧ (certificatesByID (store w) !! id = Some p
     → certificatesByID (store w') !! id = Some p).
Proof.
  induction 1 as [|w1 w2 w3 Hstep _ IH]; [done|].
  destruct IH as (I1 & I2 & I3 & I4).
  destruct (step_id_indices_write_once w1 w2 id p Hstep) as (O1 & O2 & O3 & O4).
  split_and!; by auto.
Qed.

Lemma step_indices_keep_their_keys (w w' : World) (id : string) :
  step w w' →
  (is_Some (accountsByID (store w) !! id)
   → is_Some (accountsByID (store w') !! id))
  ∧ (is_Some (ordersByIssuedSerial (store w) !! id)
     → is_Some (ordersByIssuedSerial (store w') !! id))
  ∧ (is_Some (revokedCertificatesByID (store w) !! id)
     → is_Some (revokedCertificatesByID (store w') !! id))
  ∧ (∀ l, ordersByAccountID (store w) !! id = Some l →
       ∃ l', ordersByAccountID (store w') !! id = Some l' ∧ l `prefix_of` l').
Proof.
  intros Hstep.
  step_cases Hstep; split_and!; try done;
    try (intros l0 Hl0; by exists l0);
    rewrite ?lookup_insert_is_Some'; try (by right); intros l0 Hl0.
  match goal with
  | |- context [<[Order_AccountID ?o:=_]> _ !! id] =>
      destruct (decide (Order_AccountID o = id)) as [Heq|Hne]
  end.
  - rewrite Heq, lookup_insert_eq, Hl0. eexists. split; [done|].
    by apply prefix_app_r.
  - rewrite lookup_insert_ne by done. by exists l0.
Qed.

(** X11.  The indices that can be overwritten never lose a key, and the list of an
    account's orders only grows at its end. *)
Theorem indices_keep_their_keys (w w' : World) (id : string) :
  later_state w w' →
  (is_Some (accountsByID (store w) !! id)
   → is_Some (accountsByID (store w') !! id))
  ∧ (is_Some (ordersByIssuedSerial (store w) !! id)
     → is_Some (ordersByIssuedSerial (store w') !! id))
  ∧ (is_Some (revokedCertificatesByID (store w) !! id)
     → is_Some (revokedCertificatesByID (store w') !! id))
  ∧ (∀ l, ordersByAccountID (store w) !! id = Some l →
       ∃ l', ordersByAccountID (store w') !! id = Some l' ∧ l `prefix_of` l').
Proof.
  induction 1 as [|w1 w2 w3 Hstep _ IH].
  { split_and!; try done. intros l Hl. by exists l. }
  destruct IH as (I1 & I2 & I3 & I4).
  destruct (step_indices_keep_their_keys w1 w2 id Hstep) as (O1 & O2 & O3 & O4).
  split_and!; [by auto..|].
  intros l Hl. destruct (O4 l Hl) as (l1 & Hl1 & Hp1).
  destruct (I4 l1 Hl1) as (l2 & Hl2 & Hp2). exists l2. split; [done|].
  by etrans.
Qed.

(** No operation changes the ID, the account ID, the certificate reference
    or the outside data of an order: only [Status] and [IsReplaced] are
    written. *)
Lemma step_order_fields (w w' : World) (p : loc) (o : Order) :
  step w w' → orders (heap w) !! p = Some o →
  ∃ o', orders (heap w') !! p = Some o'
        ∧ Order_ID o' = Order_ID o
        ∧ Order_AccountID o' = Order_AccountID o
        ∧ Order_CertificateObject o' = Order_CertificateObject o
        ∧ Order_Data o' = Order_Data o.
Proof.
  intros Hstep Ho. step_cases Hstep; try (by exists o).
  - match goal with |- context [<[?q:=_]> _ !! p] =>
      destruct (decide (q = p)) as [->|Hne] end.
    + rewrite lookup_insert_eq. eexists. split; [done|]. by simplify_eq.
    + rewrite lookup_insert_ne by done. by exists o.
  - match goal with |- context [<[?q:=_]> _ !! p] =>
      destruct (decide (q = p)) as [->|Hne] end.
    + rewrite lookup_insert_eq. eexists. split; [done|]. by simplify_eq.
    + rewrite lookup_insert_ne by done. by exists o.
  - match goal with
    | Hr : refreshStatuses _ _ = Some _ |- _ =>
        destruct (refreshStatuses_same_but_Status _ _ _ p o Hr Ho)
          as (o' & Ho' & Hs)
    end.
    exists o'. split; [done|]. unfold same_but_Status in Hs.
    by injection Hs as -> -> _ -> ->.
Qed.

(** X12.  Whatever the store is asked to do, an order keeps its ID, its account
    ID, its certificate reference and its outside data: the store writes
    only to [Status] and [IsReplaced]. *)
Theorem order_identity_is_stable (w w' : World) (p : loc) (o : Order) :
  later_state w w' → orders (heap w) !! p = Some o →
  ∃ o', orders (heap w') !! p = Some o'
        ∧ Order_ID o' = Order_ID o
        ∧ Order_AccountID o' = Order_AccountID o
        ∧ Order_CertificateObject o' = Order_CertificateObject o
        ∧ Order_Data o' = Order_Data o.
Proof.
  intros Hlater. revert o.
  induction Hlater as [|w1 w2 w3 Hstep _ IH]; intros o Ho; [by exists o|].
  destruct (step_order_fields w1 w2 p o Hstep Ho)
    as (o1 & Ho1 & E1 & E2 & E3 & E4).
  destruct (IH o1 Ho1) as (o2 & Ho2 & F1 & F2 & F3 & F4).
  exists o2. split; [done|]. split_and!; congruence.
Qed.

(** What a step does to the two order indices: nothing, unless it is a
    successful [AddOrder]. *)
Lemma step_order_indices (w w' : World) :
  step w w' →
  (ordersByID (store w') = ordersByID (store w)
   ∧ ordersByAccountID (store w') = ordersByAccountID (store w))
  ∨ (∃ order o,
       orders (heap w) !! order = Some o ∧ heap w' = heap w
       ∧ ordersByID (store w) !! Order_ID o = None
       ∧ ordersByID (store w') = <[Order_ID o:=order]> (ordersByID (store w))
       ∧ ordersByAccountID (store w')
         = <[Order_AccountID o:=
               match ordersByAccountID (store w) !! Order_AccountID o with
               | Some l => l
               | None => []
               end ++ [order]]> (ordersByAccountID (store w))).
Proof.
  intros Hstep. step_cases Hstep; try (by left). right. by eexists _, _.
Qed.

Lemma step_order_indices_agree (w w' : World) :
  step w w' → order_indices_agree w → order_indices_agree w'.
Proof.
  intros Hstep [HbyID HbyAcc].
  pose proof (λ p o, step_order_fields w w' p o Hstep) as Hfields.
  destruct (step_order_indices w w' Hstep)
    as [[EbyID EbyAcc]|(order & o & Ho & Eheap & Hfresh & EbyID & EbyAcc)];
    unfold order_indices_agree; rewrite EbyID, EbyAcc.
  - split.
    + intros id p Hl. destruct (HbyID id p Hl) as (o & l & Ho & <- & Hl' & Hin).
      destruct (Hfields p o Ho) as (o' & Ho' & Hid & Hacc & _).
      exists o', l. by rewrite Hid, Hacc.
    + intros a l p Hl Hin. destruct (HbyAcc a l p Hl Hin) as (o & Ho & <- & Hl').
      destruct (Hfields p o Ho) as (o' & Ho' & Hid & Hacc & _).
      exists o'. by rewrite Hid, Hacc.
  - rewrite Eheap.
    set (l0 := match ordersByAccountID (store w) !! Order_AccountID o with
               | Some l => l | None => [] end).
    split.
    + intros id p [[<- <-]|[Hne Hl]]%lookup_insert_Some.
      * exists o, (l0 ++ [order]). rewrite lookup_insert_eq.
        split_and!; try done. apply elem_of_app. right.
        by apply list_elem_of_singleton.
      * destruct (HbyID id p Hl) as (o1 & l & Ho1 & <- & Hl' & Hin).
        destruct (decide (Order_AccountID o = Order_AccountID o1)) as [Heq|Hna].
        -- exists o1, (l0 ++ [order]). rewrite <- Heq, lookup_insert_eq.
           split_and!; try done. subst l0. rewrite Heq, Hl'.
           apply elem_of_app. by left.
        -- exists o1, l. by rewrite lookup_insert_ne.
    + intros a l p [[<- <-]|[Hna Hl]]%lookup_insert_Some Hin.
      * apply elem_of_app in Hin as [Hin| ->%list_elem_of_singleton].
        -- subst l0.
           destruct (ordersByAccountID (store w) !! Order_AccountID o)
             as [l|] eqn:Hl; [|by apply elem_of_nil in Hin].
           destruct (HbyAcc _ l p Hl Hin) as (o1 & Ho1 & Hacc & Hl1).
           exists o1. split_and!; try done.
           rewrite lookup_insert_ne; [done | congruence].
        -- exists o. by rewrite lookup_insert_eq.
      * destruct (HbyAcc a l p Hl Hin) as (o1 & Ho1 & Hacc & Hl1).
        exists o1. split_and!; try done.
        rewrite lookup_insert_ne; [done | congruence].
Qed.

(** X13.  In a store that started empty the two order indices agree: the order
    [GetOrderByID] finds under an ID carries that ID and is in the list of
    its account, and every order in the list of an account carries that
    account ID and is the one filed under its own ID. *)
Theorem reachable_order_indices_agree (w : World) :
  reachable w → order_indices_agree w.
Proof.
  intros (h & r & Hlater).
  assert (order_indices_agree {| heap := h; store := NewMemoryStore r |})
    as H0 by (split; intros; by simplify_map_eq).
  revert H0. unfold later_state in Hlater.
  induction Hlater as [|w1 w2 w3 Hstep _ IH]; [done|].
  intros H1. apply IH. by apply (step_order_indices_agree w1).
Qed.

Lemma step_empty_id (w w' : World) :
  step w w' →
  (ordersByID (store w) !! EmptyString = None
   → ordersByID (store w') !! EmptyString = None)
  ∧ (authorizationsByID (store w) !! EmptyString = None
     → authorizationsByID (store w') !! EmptyString = None)
  ∧ (challengesByID (store w) !! EmptyString = None
     → challengesByID (store w') !! EmptyString = None)
  ∧ (certificatesByID (store w) !! EmptyString = None
     → certificatesByID (store w') !! EmptyString = None)
  ∧ (externalAccountKeysByID (store w) !! EmptyString = None
     → externalAccountKeysByID (store w') !! EmptyString = None).
Proof.
  intros Hstep. step_cases Hstep; split_and!; try done; intros Hl;
    (rewrite lookup_insert_ne; [done|]); intros Heq;
    repeat match goal with
      | He : is_empty _ = false |- _ => apply is_empty_false in He
      | He : _ || _ = false |- _ => apply orb_false_elim in He as [? ?]
      end;
    done.
Qed.

(** X14.  In a store that started empty, nothing is ever filed under the empty ID
    in the indices whose [Add] operation checks the ID: the lookups of the
    empty ID return nil. *)
Theorem reachable_empty_id_absent (w : World) :
  reachable w →
  GetOrderByID EmptyString w = Returns None w
  ∧ GetAuthorizationByID EmptyString w = Returns None w
  ∧ GetChallengeByID EmptyString w = Returns None w
  ∧ GetCertificateByID EmptyString w = Returns None w
  ∧ GetExtenalAccountKeyByID EmptyString w = Returns None w.
Proof.
  intros (h & r & Hlater).
  assert (ordersByID (store w) !! EmptyString = None
          ∧ authorizationsByID (store w) !! EmptyString = None
          ∧ challengesByID (store w) !! EmptyString = None
          ∧ certificatesByID (store w) !! EmptyString = None
          ∧ externalAccountKeysByID (store w) !! EmptyString = None)
    as (H1 & H2 & H3 & H4 & H5).
  { assert (ordersByID (NewMemoryStore r) !! EmptyString = None
            ∧ authorizationsByID (NewMemoryStore r) !! EmptyString = None
            ∧ challengesByID (NewMemoryStore r) !! EmptyString = None
            ∧ certificatesByID (NewMemoryStore r) !! EmptyString = None
            ∧ externalAccountKeysByID (NewMemoryStore r) !! EmptyString = None)
      as H0 by (by simpl).
    revert H0.
    change (NewMemoryStore r)
      with (store {| heap := h; store := NewMemoryStore r |}).
    unfold later_state in Hlater.
    induction Hlater as [|w1 w2 w3 Hstep _ IH]; [done|].
    intros (H1 & H2 & H3 & H4 & H5). apply IH.
    destruct (step_empty_id w1 w2 Hstep) as (S1 & S2 & S3 & S4 & S5).
    split_and!; by auto. }
  unfold GetOrderByID, GetAuthorizationByID, GetChallengeByID,
    GetCertificateByID, GetExtenalAccountKeyByID.
  by rewrite H1, H2, H3, H4, H5.
Qed.

Lemma step_revoked_blocks_live (w w' : World) (id : string) :
  step w w' →
  is_Some (revokedCertificatesByID (store w) !! id) →
  is_Some (revokedCertificatesByID (store w') !! id)
  ∧ certificatesByID (store w') !! id = certificatesByID (store w) !! id.
Proof.
  intros Hstep Hrev. step_cases Hstep; split; try done.
  - rewrite lookup_insert_ne; [done|]. intros <-.
    destruct Hrev as [? Hrev]. congruence.
  - rewrite lookup_insert_is_Some'. by right.
Qed.

(** X15.  Once an ID is in the revoked index it stays there, and the live index
    never changes at that ID again: a certificate revoked before it was
    added can never be added, and one added before it was revoked stays. *)
Theorem revoked_id_blocks_live (w w' : World) (id : string) :
  later_state w w' →
  is_Some (revokedCertificatesByID (store w) !! id) →
  is_Some (revokedCertificatesByID (store w') !! id)
  ∧ GetCertificateByID id w'
    = Returns (certificatesByID (store w) !! id) w'.
Proof.
  unfold GetCertificateByID.
  induction 1 as [|w1 w2 w3 Hstep _ IH]; [done|].
  intros Hrev.
  destruct (step_revoked_blocks_live w1 w2 id Hstep Hrev) as [Hrev2 Hlive].
  destruct (IH Hrev2) as [Hrev3 Hget]. split; [done|].
  by rewrite Hget, Hlive.
Qed.

End Invariants.

(** ** More on accounts *)

Section AccountsMore.
Context `{SM : StatusMachine}.

(** The ID the loop settles on is the hexadecimal form of a number it
    drew. *)
Lemma newAccountID_drawn (fuel : nat) (r r' : Rand) (byID : gmap string loc)
    (acctID : string) :
  newAccountID fuel r byID = Some (acctID, r') →
  ∃ r0, acctID = FormatInt16 (Int63 r0).1 ∧ r' = (Int63 r0).2.
Proof.
  revert r. induction fuel as [|fuel IH]; intros r; [done|]. simpl.
  destruct (byID !! FormatInt16 (Int63 r).1); [apply IH|].
  intros [= <- <-]. by exists r.
Qed.

(** A larger budget of draws never changes what [AddAccount] does once it
    has returned within a smaller one. *)
Theorem AddAccount_more_fuel (fuel fuel' : nat) (acct : loc) (w : World) :
  AddAccount fuel acct w ≠ OutOfFuel → (fuel ≤ fuel')%nat →
  AddAccount fuel' acct w = AddAccount fuel acct w.
Proof.
  unfold AddAccount. intros Hret Hle.
  destruct (accounts (heap w) !! acct) as [a|]; [|done].
  destruct (Account_Key a) as [k|]; [|done].
  destruct (keyToID (PtrJSONWebKey (Some k))) as [keyID|]; [|done].
  destruct (newAccountID fuel _ _) as [x|] eqn:Hnew; [|done].
  by rewrite (newAccountID_more_fuel fuel fuel' _ _ x Hnew Hle).
Qed.

(** X16.  A successful [AddAccount] gives the account an ID that was unused, the
    hexadecimal form of a number drawn from the random source, and files the
    account under that ID and under the fingerprint of its key; both lookups
    find it, and the count returned is one more than the number of accounts
    before. *)
Theorem AddAccount_registers (fuel : nat) (acct : loc) (w w' : World) (n : Z) :
  AddAccount fuel acct w = Returns (Ok n) w' →
  ∃ a keyID,
    accounts (heap w') !! acct = Some a
    ∧ keyToID (PtrJSONWebKey (Account_Key a)) = Ok keyID
    ∧ (∃ r0, Account_ID a = FormatInt16 (Int63 r0).1)
    ∧ accountsByID (store w) !! Account_ID a = None
    ∧ accountsByKeyID (store w) !! keyID = None
    ∧ GetAccountByID (Account_ID a) w' = Returns (Some acct) w'
    ∧ GetAccountByKey (PtrJSONWebKey (Account_Key a)) w'
      = Returns (Ok (Some acct)) w'
    ∧ n = (len (accountsByID (store w)) + 1)%Z.
Proof.
  unfold AddAccount. intros Hr.
  destruct (accounts (heap w) !! acct) as [a|] eqn:Ha; [|done].
  destruct (Account_Key a) as [k|] eqn:Hk; [|done].
  destruct (keyToID (PtrJSONWebKey (Some k))) as [keyID|] eqn:Hid; [|done].
  destruct (newAccountID fuel _ _) as [[acctID r]|] eqn:Hnew; [|done].
  simpl in Hr.
  destruct (accountsByKeyID (store w) !! keyID) eqn:Hkey; [done|].
  injection Hr as <- <-.
  pose proof (newAccountID_fresh _ _ _ _ _ Hnew) as Hfresh.
  destruct (newAccountID_drawn _ _ _ _ _ Hnew) as (r0 & Hdrawn & _).
  exists (set_Account_ID acctID a), keyID.
  unfold GetAccountByID, GetAccountByKey, set_Account_ID.
  cbn [Account_Key Account_ID heap store accounts with_accounts accountsByID
       accountsByKeyID set_accountMaps set_accountRand].
  rewrite Hk, Hid, !lookup_insert_eq.
  split_and!; try done; [by exists r0|].
  unfold len. rewrite map_size_insert_None by done. lia.
Qed.

(** X17.  A failed [AddAccount] changes no object and no index; at most the random
    source has moved on. *)
Theorem AddAccount_failure_changes_nothing (fuel : nat) (acct : loc)
    (w w' : World) (e : error) :
  AddAccount fuel acct w = Returns (Err e) w' →
  heap w' = heap w
  ∧ set_accountRand (accountRand (store w)) (store w') = store w
  ∧ (e = ErrAccountNilKey → w' = w).
Proof.
  unfold AddAccount. intros Hr.
  destruct (accounts (heap w) !! acct) as [a|] eqn:Ha; [|done].
  destruct (Account_Key a) as [k|] eqn:Hk.
  2: { injection Hr as <- <-. by destruct w as [? []]. }
  destruct (keyToID (PtrJSONWebKey (Some k))) as [keyID|] eqn:Hid.
  2: { injection Hr as <- <-. split_and!; try done. by destruct w as [? []]. }
  destruct (newAccountID fuel _ _) as [[acctID r]|] eqn:Hnew; [|done].
  simpl in Hr.
  destruct (accountsByKeyID (store w) !! keyID) eqn:Hkey; [|done].
  injection Hr as <- <-. split_and!; try done. by destruct w as [? []].
Qed.

(** X18.  After a successful [ChangeAccountKey] the account is found under its new
    key and under its ID, and nothing is found under its old key any more
    when the two fingerprints differ; entries under other fingerprints are
    untouched.  A failed [ChangeAccountKey] changes nothing. *)
Theorem ChangeAccountKey_lookups (w w' : World) (acct : loc)
    (newKey : option JSONWebKey) (a : Account) (oldKeyID : string)
    (r : result unit) :
  accounts (heap w) !! acct = Some a →
  keyToID (PtrJSONWebKey (Account_Key a)) = Ok oldKeyID →
  ChangeAccountKey acct newKey w = Returns r w' →
  match r with
  | Err _ => w' = w
  | Ok _ =>
      ∃ newKeyID,
        keyToID (PtrJSONWebKey newKey) = Ok newKeyID
        ∧ accounts (heap w') !! acct = Some (set_Account_Key newKey a)
        ∧ GetAccountByKey (PtrJSONWebKey newKey) w'
          = Returns (Ok (Some acct)) w'
        ∧ GetAccountByID (Account_ID a) w' = Returns (Some acct) w'
        ∧ (oldKeyID ≠ newKeyID →
           GetAccountByKey (PtrJSONWebKey (Account_Key a)) w'
           = Returns (Ok None) w')
        ∧ (∀ keyID, keyID ≠ oldKeyID → keyID ≠ newKeyID →
             accountsByKeyID (store w') !! keyID
             = accountsByKeyID (store w) !! keyID)
  end.
Proof.
  intros Ha Hold. unfold ChangeAccountKey. rewrite Ha, Hold.
  destruct (keyToID (PtrJSONWebKey newKey)) as [newKeyID|] eqn:Hnew.
  2: { by intros [= <- <-]. }
  destruct (accountsByKeyID (store w) !! newKeyID) eqn:Hl.
  { by intros [= <- <-]. }
  intros [= <- <-]. exists newKeyID.
  unfold GetAccountByKey, GetAccountByID. rewrite Hnew, Hold.
  cbn [heap store accounts with_accounts accountsByID accountsByKeyID
       set_accountMaps].
  rewrite !lookup_insert_eq. split_and!; try done.
  - intros Hne. by rewrite lookup_insert_ne, lookup_delete_eq.
  - intros keyID H1 H2. by rewrite lookup_insert_ne, lookup_delete_ne.
Qed.

(** X19.  [UpdateAccountByID] refuses an ID under which no account is filed.
    Otherwise it files the given account under the ID and under the
    fingerprint of its key, and removes nothing: an account found before
    under another fingerprint is still found under it, also when it is the
    account that was replaced. *)
Theorem UpdateAccountByID_contract (w : World) (id : string) (acct : loc)
    (a : Account) (keyID : string) :
  accounts (heap w) !! acct = Some a →
  keyToID (PtrJSONWebKey (Account_Key a)) = Ok keyID →
  (accountsByID (store w) !! id = None →
     UpdateAccountByID id acct w
     = Returns (Err (ErrAccountDoesNotExist id)) w)
  ∧ (∀ old, accountsByID (store w) !! id = Some old →
       is_Some (accounts (heap w) !! old) →
       ∃ w', UpdateAccountByID id acct w = Returns (Ok ()) w'
         ∧ heap w' = heap w
         ∧ GetAccountByID id w' = Returns (Some acct) w'
         ∧ GetAccountByKey (PtrJSONWebKey (Account_Key a)) w'
           = Returns (Ok (Some acct)) w'
         ∧ (∀ k, k ≠ keyID →
              accountsByKeyID (store w') !! k = accountsByKeyID (store w) !! k)
         ∧ (∀ i, i ≠ id →
              accountsByID (store w') !! i = accountsByID (store w) !! i)).
Proof.
  intros Ha Hid. unfold UpdateAccountByID. split.
  - by intros ->.
  - intros old -> [ao Hao]. rewrite Ha, Hid. simpl. rewrite Hao.
    eexists. split; [reflexivity|].
    unfold GetAccountByID, GetAccountByKey. rewrite Hid. simpl.
    rewrite !lookup_insert_eq. split_and!; try done.
    + intros k Hk. by rewrite lookup_insert_ne.
    + intros i Hi. by rewrite lookup_insert_ne.
Qed.

End AccountsMore.

(** ** More on orders, authorizations and challenges *)

Section OrdersMore.
Context `{SM : StatusMachine}.

(** X20.  [UpdateReplacedOrder] refuses the empty serial and a serial under which
    no order is indexed.  For an indexed order it succeeds, writes the flag
    into the order's field [IsReplaced] and changes nothing else. *)
Theorem UpdateReplacedOrder_contract (w : World) (serial : string)
    (shouldBeReplaced : bool) :
  (serial = EmptyString →
     UpdateReplacedOrder serial shouldBeReplaced w
     = Returns (Err ErrNoSerialProvided) w)
  ∧ (serial ≠ EmptyString →
     ordersByIssuedSerial (store w) !! serial = None →
     UpdateReplacedOrder serial shouldBeReplaced w
     = Returns (Err (ErrNoOrderForCertificate ErrOrderSerialNotFound)) w)
  ∧ (serial ≠ EmptyString →
     ∀ order o, ordersByIssuedSerial (store w) !! serial = Some order →
       orders (heap w) !! order = Some o →
       ∃ w', UpdateReplacedOrder serial shouldBeReplaced w = Returns (Ok ()) w'
         ∧ store w' = store w
         ∧ orders (heap w')
           = <[order:=set_Order_IsReplaced shouldBeReplaced o]>
               (orders (heap w))
         ∧ with_orders (orders (heap w)) (heap w') = heap w
         ∧ GetOrderByIssuedSerial serial w' = Returns (Ok order) w').
Proof.
  unfold UpdateReplacedOrder, GetOrderByIssuedSerial. split_and!.
  - by intros ->.
  - intros Hne%is_empty_false Hl. by rewrite Hne, Hl.
  - intros Hne%is_empty_false order o Hl Ho. rewrite Hne, Hl, Ho.
    eexists. split; [reflexivity|]. simpl. rewrite Hl.
    split_and!; try done. by destruct w as [[] ?].
Qed.

(** X21.  An order indexed by [AddOrderByIssuedSerial] can be marked replaced
    through its certificate's ID, provided that ID is not empty; an order
    indexed under the empty ID is out of reach of [UpdateReplacedOrder]. *)
Theorem UpdateReplacedOrder_after_AddOrderByIssuedSerial (w w1 : World)
    (order : loc) (o : Order) (c : Certificate) (shouldBeReplaced : bool) :
  orders (heap w) !! order = Some o →
  certificates (heap w) !! Order_CertificateObject o = Some c →
  AddOrderByIssuedSerial order w = Returns (Ok ()) w1 →
  (Certificate_ID c ≠ EmptyString →
     ∃ w2, UpdateReplacedOrder (Certificate_ID c) shouldBeReplaced w1
           = Returns (Ok ()) w2
       ∧ orders (heap w2) !! order
         = Some (set_Order_IsReplaced shouldBeReplaced o))
  ∧ (Certificate_ID c = EmptyString →
     GetOrderByIssuedSerial (Certificate_ID c) w1 = Returns (Ok order) w1
     ∧ UpdateReplacedOrder (Certificate_ID c) shouldBeReplaced w1
       = Returns (Err ErrNoSerialProvided) w1).
Proof.
  intros Ho Hc. unfold AddOrderByIssuedSerial. rewrite Ho, Hc.
  intros [= <-]. unfold UpdateReplacedOrder, GetOrderByIssuedSerial. simpl.
  rewrite lookup_insert_eq. split.
  - intros Hne%is_empty_false. rewrite Hne. simpl.
    rewrite ?lookup_insert_eq. simpl. rewrite Ho. eexists.
    split; [reflexivity|]. simpl. by rewrite lookup_insert_eq.
  - intros Heq. by rewrite Heq.
Qed.

(** X22.  After a successful [AddOrder] the order is the last of its account's
    list, behind the orders the list had, and the orders filed under other
    IDs and the lists of other accounts are as before. *)
Theorem AddOrder_appends (w w' : World) (order : loc) (o : Order) (n : Z) :
  orders (heap w) !! order = Some o →
  AddOrder order w = Returns (Ok n) w' →
  heap w' = heap w
  ∧ ordersByAccountID (store w') !! Order_AccountID o
    = Some (match ordersByAccountID (store w) !! Order_AccountID o with
            | Some l => l
            | None => []
            end ++ [order])
  ∧ (∀ accountID, accountID ≠ Order_AccountID o →
       ordersByAccountID (store w') !! accountID
       = ordersByAccountID (store w) !! accountID)
  ∧ (∀ id, id ≠ Order_ID o →
       ordersByID (store w') !! id = ordersByID (store w) !! id)
  ∧ n = (len (ordersByID (store w)) + 1)%Z
  ∧ set_orderMaps (ordersByID (store w)) (ordersByAccountID (store w))
      (store w') = store w.
Proof.
  intros Ho. unfold AddOrder. rewrite Ho. simpl.
  destruct (is_empty (Order_ID o)); [done|].
  destruct (ordersByID (store w) !! Order_ID o) eqn:Hid; [done|].
  intros [= <- <-]. simpl. rewrite lookup_insert_eq. split_and!; try done.
  - intros a Ha. by rewrite lookup_insert_ne.
  - intros id Hne. by rewrite lookup_insert_ne.
  - unfold len. rewrite map_size_insert_None by done. lia.
  - by destruct w as [? []].
Qed.

(** X23.  [AddAuthorization] of an authorization whose ID is not empty: an
    ID already present is refused, the world unchanged; otherwise the
    authorization is filed under its ID, where [GetAuthorizationByID] finds
    it, the other IDs are as before and the count returned is one more than
    the number of entries before.  (For a non-empty ID the authorization's
    lock is released before these tests are made.) *)
Theorem AddAuthorization_contract (w : World) (authz : loc)
    (a : Authorization) :
  authorizations (heap w) !! authz = Some a →
  Authorization_ID a ≠ EmptyString →
  (is_Some (authorizationsByID (store w) !! Authorization_ID a) →
     AddAuthorization authz w
     = Returns (Err (ErrAuthzExists (Authorization_ID a))) w)
  ∧ (authorizationsByID (store w) !! Authorization_ID a = None →
     ∃ w', AddAuthorization authz w
           = Returns (Ok (len (authorizationsByID (store w)) + 1)%Z) w'
       ∧ heap w' = heap w
       ∧ GetAuthorizationByID (Authorization_ID a) w'
         = Returns (Some authz) w'
       ∧ (∀ id, id ≠ Authorization_ID a →
            GetAuthorizationByID id w'
            = Returns (authorizationsByID (store w) !! id) w')
       ∧ set_authorizationsByID (authorizationsByID (store w)) (store w')
         = store w).
Proof.
  intros Ha Hne%is_empty_false.
  unfold AddAuthorization, GetAuthorizationByID. rewrite Ha. simpl.
  rewrite Hne. split.
  - intros [p Hp]. by rewrite Hp.
  - intros Hl. rewrite Hl. eexists. split.
    + unfold len. rewrite map_size_insert_None by done.
      by replace (Z.of_nat (S (size (authorizationsByID (store w)))))
        with (Z.of_nat (size (authorizationsByID (store w))) + 1)%Z by lia.
    + simpl. rewrite lookup_insert_eq. split_and!; try done.
      * intros id Hid. by rewrite lookup_insert_ne.
      * by destruct w as [? []].
Qed.

(** X24.  [AddChallenge]: the same contract, on the index of challenges. *)
Theorem AddChallenge_contract (w : World) (chal : loc) (c : Challenge) :
  challenges (heap w) !! chal = Some c →
  (Challenge_ID c = EmptyString →
     AddChallenge chal w = Returns (Err ErrChallengeEmptyID) w)
  ∧ (Challenge_ID c ≠ EmptyString →
     is_Some (challengesByID (store w) !! Challenge_ID c) →
     AddChallenge chal w
     = Returns (Err (ErrChallengeExists (Challenge_ID c))) w)
  ∧ (Challenge_ID c ≠ EmptyString →
     challengesByID (store w) !! Challenge_ID c = None →
     ∃ w', AddChallenge chal w
           = Returns (Ok (len (challengesByID (store w)) + 1)%Z) w'
       ∧ heap w' = heap w
       ∧ GetChallengeByID (Challenge_ID c) w' = Returns (Some chal) w'
       ∧ (∀ id, id ≠ Challenge_ID c →
            GetChallengeByID id w'
            = Returns (challengesByID (store w) !! id) w')
       ∧ set_challengesByID (challengesByID (store w)) (store w') = store w).
Proof.
  intros Hc. unfold AddChallenge, GetChallengeByID. rewrite Hc. simpl.
  split_and!.
  - by intros ->.
  - intros Hne%is_empty_false [p Hp]. by rewrite Hne, Hp.
  - intros Hne%is_empty_false Hl. rewrite Hne, Hl. eexists. split.
    + unfold len. rewrite map_size_insert_None by done.
      by replace (Z.of_nat (S (size (challengesByID (store w)))))
        with (Z.of_nat (size (challengesByID (store w))) + 1)%Z by lia.
    + simpl. rewrite lookup_insert_eq. split_and!; try done.
      * intros id Hid. by rewrite lookup_insert_ne.
      * by destruct w as [? []].
Qed.

(** X25.  The order reads write to nothing but the field [Status]: the store is as
    before, and every order is as before up to that field; [GetOrderByID]
    leaves the orders it does not return exactly as they are. *)
Theorem order_reads_touch_only_Status (w w' : World) :
  (∀ id r, GetOrderByID id w = Returns r w' →
     store w' = store w
     ∧ with_orders (orders (heap w)) (heap w') = heap w
     ∧ (r = None → w' = w)
     ∧ ∀ p o, orders (heap w) !! p = Some o →
         ∃ o', orders (heap w') !! p = Some o' ∧ same_but_Status o o'
               ∧ (r ≠ Some p → o' = o))
  ∧ (∀ accountID r, GetOrdersByAccountID accountID w = Returns r w' →
       store w' = store w
       ∧ with_orders (orders (heap w)) (heap w') = heap w
       ∧ (r = None → w' = w)
       ∧ ∀ p o, orders (heap w) !! p = Some o →
           ∃ o', orders (heap w') !! p = Some o' ∧ same_but_Status o o'
                 ∧ (∀ l, r = Some l → p ∉ l → o' = o)).
Proof.
  split.
  - intros id r. unfold GetOrderByID.
    destruct (ordersByID (store w) !! id) as [order|] eqn:Hl.
    2: { intros [= <- <-]. split_and!; try done; [by destruct w as [[] ?]|].
         intros p o Ho. by exists o. }
    destruct (orders (heap w) !! order) as [oo|] eqn:Hoo; [|done].
    destruct (GetStatus oo) as [st|]; [|done].
    intros [= <- <-]. simpl. split_and!; try done; [by destruct w as [[] ?]|].
    intros p o Ho. destruct (decide (order = p)) as [->|Hne].
    + rewrite lookup_insert_eq. eexists. split; [done|].
      rewrite Hoo in Ho. injection Ho as <-.
      split; [apply same_but_Status_set | done].
    + rewrite lookup_insert_ne by done. by exists o.
  - intros accountID r. unfold GetOrdersByAccountID.
    destruct (ordersByAccountID (store w) !! accountID) as [l|] eqn:Hl.
    2: { intros [= <- <-]. split_and!; try done; [by destruct w as [[] ?]|].
         intros p o Ho. by exists o. }
    destruct (refreshStatuses l (orders (heap w))) as [os|] eqn:Hr; [|done].
    intros [= <- <-]. simpl. split_and!; try done; [by destruct w as [[] ?]|].
    intros p o Ho.
    destruct (refreshStatuses_same_but_Status _ _ _ p o Hr Ho)
      as (o' & Ho' & Hs).
    exists o'. split_and!; try done. intros l' [= <-] Hnot.
    rewrite (refreshStatuses_frame _ _ _ _ Hr Hnot), Ho in Ho'. congruence.
Qed.

End OrdersMore.

(** ** More on certificates *)

Section CertificatesMore.
Context `{SM : StatusMachine}.

Lemma findCertificateBySerial_found (iter : list (string * loc))
    (serialNumber : Z) (cs : gmap loc Certificate) (cert : loc) :
  findCertificateBySerial iter serialNumber cs = Some (Some cert) →
  ∃ id c, (id, cert) ∈ iter ∧ cs !! cert = Some c
          ∧ Certificate_SerialNumber c = serialNumber.
Proof.
  induction iter as [|[id p] iter IH]; simpl; [done|].
  destruct (cs !! p) as [c|] eqn:Hc; [|done]. case_decide as Hs.
  - intros [= <-]. exists id, c. split; [apply elem_of_cons; by left | done].
  - intros Hr. destruct (IH Hr) as (id' & c' & Hin & ?).
    exists id', c'. split; [apply elem_of_cons; by right | done].
Qed.

Lemma findCertificateBySerial_none (iter : list (string * loc))
    (serialNumber : Z) (cs : gmap loc Certificate) :
  findCertificateBySerial iter serialNumber cs = Some None →
  ∀ id cert c, (id, cert) ∈ iter → cs !! cert = Some c →
               Certificate_SerialNumber c ≠ serialNumber.
Proof.
  induction iter as [|[id p] iter IH]; simpl.
  - intros _ id cert c Hin. by apply elem_of_nil in Hin.
  - destruct (cs !! p) as [c|] eqn:Hc; [|done]. case_decide as Hs; [done|].
    intros Hr id' cert c' [[= -> ->]|Hin]%elem_of_cons Hc'.
    + congruence.
    + by apply (IH Hr id' cert).
Qed.

Lemma findRevokedCertificateBySerial_found (iter : list (string * loc))
    (serialNumber : Z) (rcs : gmap loc RevokedCertificate)
    (cs : gmap loc Certificate) (revoked : loc) :
  findRevokedCertificateBySerial iter serialNumber rcs cs
  = Some (Some revoked) →
  ∃ id rc c, (id, revoked) ∈ iter ∧ rcs !! revoked = Some rc
             ∧ cs !! RevokedCertificate_Certificate rc = Some c
             ∧ Certificate_SerialNumber c = serialNumber.
Proof.
  induction iter as [|[id p] iter IH]; simpl; [done|].
  destruct (rcs !! p) as [rc|] eqn:Hrc; [|done].
  destruct (cs !! RevokedCertificate_Certificate rc) as [c|] eqn:Hc; [|done].
  case_decide as Hs.
  - intros [= <-]. exists id, rc, c.
    split; [apply elem_of_cons; by left | done].
  - intros Hr. destruct (IH Hr) as (id' & rc' & c' & Hin & ?).
    exists id', rc', c'. split; [apply elem_of_cons; by right | done].
Qed.

Lemma findRevokedCertificateBySerial_none (iter : list (string * loc))
    (serialNumber : Z) (rcs : gmap loc RevokedCertificate)
    (cs : gmap loc Certificate) :
  findRevokedCertificateBySerial iter serialNumber rcs cs = Some None →
  ∀ id revoked rc c, (id, revoked) ∈ iter → rcs !! revoked = Some rc →
    cs !! RevokedCertificate_Certificate rc = Some c →
    Certificate_SerialNumber c ≠ serialNumber.
Proof.
  induction iter as [|[id p] iter IH]; simpl.
  - intros _ id revoked rc c Hin. by apply elem_of_nil in Hin.
  - destruct (rcs !! p) as [rc|] eqn:Hrc; [|done].
    destruct (cs !! RevokedCertificate_Certificate rc) as [c|] eqn:Hc;
      [|done].
    case_decide as Hs; [done|].
    intros Hr id' revoked rc' c' [[= -> ->]|Hin]%elem_of_cons Hrc' Hc'.
    + congruence.
    + by apply (IH Hr id' revoked rc').
Qed.

Lemma setARIFirst_none (iter : list (string * loc)) (serial : Z)
    (ariResponse : string) (cs : gmap loc Certificate) :
  setARIFirst iter serial ariResponse cs = Some None →
  ∀ id cert c, (id, cert) ∈ iter → cs !! cert = Some c →
               Certificate_SerialNumber c ≠ serial.
Proof.
  induction iter as [|[id p] iter IH]; simpl.
  - intros _ id cert c Hin. by apply elem_of_nil in Hin.
  - destruct (cs !! p) as [c|] eqn:Hc; [|done]. case_decide as Hs; [done|].
    intros Hr id' cert c' [[= -> ->]|Hin]%elem_of_cons Hc'.
    + congruence.
    + by apply (IH Hr id' cert).
Qed.

(** X26.  [GetCertificateBySerial], in whatever sequence the map is ranged over,
    changes nothing; the certificate it returns is in the live index and has
    the serial number asked for; it returns nil only when no certificate of
    the live index has that serial number. *)
Theorem GetCertificateBySerial_spec (w w' : World) (iter : list (string * loc))
    (serialNumber : Z) (r : option loc) :
  iter ≡ₚ map_to_list (certificatesByID (store w)) →
  GetCertificateBySerial iter serialNumber w = Returns r w' →
  w' = w
  ∧ match r with
    | Some cert =>
        ∃ id c, certificatesByID (store w) !! id = Some cert
                ∧ certificates (heap w) !! cert = Some c
                ∧ Certificate_SerialNumber c = serialNumber
    | None =>
        ∀ id cert c, certificatesByID (store w) !! id = Some cert →
          certificates (heap w) !! cert = Some c →
          Certificate_SerialNumber c ≠ serialNumber
    end.
Proof.
  intros Hiter. unfold GetCertificateBySerial.
  destruct (findCertificateBySerial _ _ _) as [r0|] eqn:Hf; [|done].
  intros [= <- <-]. split; [done|]. destruct r0 as [cert|].
  - apply findCertificateBySerial_found in Hf as (id & c & Hin & Hc & Hs).
    exists id, c. split; [exact (proj1 (range_entries iter _ _ _ Hiter) Hin) | done].
  - intros id cert c Hl.
    apply (findCertificateBySerial_none _ _ _ Hf id).
    exact (proj2 (range_entries iter _ _ _ Hiter) Hl).
Qed.

(** X27.  [GetRevokedCertificateBySerial]: the same, on the revoked index, the
    serial number being that of the wrapped certificate. *)
Theorem GetRevokedCertificateBySerial_spec (w w' : World)
    (iter : list (string * loc)) (serialNumber : Z) (r : option loc) :
  iter ≡ₚ map_to_list (revokedCertificatesByID (store w)) →
  GetRevokedCertificateBySerial iter serialNumber w = Returns r w' →
  w' = w
  ∧ match r with
    | Some revoked =>
        ∃ id rc c, revokedCertificatesByID (store w) !! id = Some revoked
          ∧ revokedCertificates (heap w) !! revoked = Some rc
          ∧ certificates (heap w) !! RevokedCertificate_Certificate rc = Some c
          ∧ Certificate_SerialNumber c = serialNumber
    | None =>
        ∀ id revoked rc c,
          revokedCertificatesByID (store w) !! id = Some revoked →
          revokedCertificates (heap w) !! revoked = Some rc →
          certificates (heap w) !! RevokedCertificate_Certificate rc = Some c →
          Certificate_SerialNumber c ≠ serialNumber
    end.
Proof.
  intros Hiter. unfold GetRevokedCertificateBySerial.
  destruct (findRevokedCertificateBySerial _ _ _ _) as [r0|] eqn:Hf; [|done].
  intros [= <- <-]. split; [done|]. destruct r0 as [revoked|].
  - apply findRevokedCertificateBySerial_found in Hf
      as (id & rc & c & Hin & Hrc & Hc & Hs).
    exists id, rc, c. split; [exact (proj1 (range_entries iter _ _ _ Hiter) Hin) | done].
  - intros id revoked rc c Hl.
    apply (findRevokedCertificateBySerial_none _ _ _ _ Hf id).
    exact (proj2 (range_entries iter _ _ _ Hiter) Hl).
Qed.

(** X28.  [SetARIResponse], in whatever sequence the map is ranged over: when it
    succeeds it has written the response into one certificate of the live
    index that has the serial number, and changed nothing else; it fails,
    changing nothing, only when no certificate of the live index has the
    serial number. *)
Theorem SetARIResponse_spec (w w' : World) (iter : list (string * loc))
    (serial : Z) (ariResponse : string) (r : result unit) :
  iter ≡ₚ map_to_list (certificatesByID (store w)) →
  SetARIResponse iter serial ariResponse w = Returns r w' →
  match r with
  | Ok _ =>
      ∃ id cert c,
        certificatesByID (store w) !! id = Some cert
        ∧ certificates (heap w) !! cert = Some c
        ∧ Certificate_SerialNumber c = serial
        ∧ store w' = store w
        ∧ certificates (heap w')
          = <[cert:=set_Certificate_ARIResponse ariResponse c]>
              (certificates (heap w))
        ∧ with_certificates (certificates (heap w)) (heap w') = heap w
        ∧ GetCertificateByID id w' = Returns (Some cert) w'
  | Err e =>
      e = ErrCertSerialNotFound serial ∧ w' = w
      ∧ ∀ id cert c, certificatesByID (store w) !! id = Some cert →
          certificates (heap w) !! cert = Some c →
          Certificate_SerialNumber c ≠ serial
  end.
Proof.
  intros Hiter. unfold SetARIResponse.
  destruct (setARIFirst _ _ _ _) as [[cs|]|] eqn:Hf; [| |done].
  - intros [= <- <-].
    apply setARIFirst_changes in Hf as (id & cert & c & Hin & Hc & Hs & ->).
    exists id, cert, c. apply (range_entries iter _ _ _ Hiter) in Hin.
    unfold GetCertificateByID. simpl. rewrite Hin.
    split_and!; try done. by destruct w as [[] ?].
  - intros [= <- <-]. split_and!; try done. intros id cert c Hl.
    apply (setARIFirst_none _ _ _ _ Hf id).
    exact (proj2 (range_entries iter _ _ _ Hiter) Hl).
Qed.

(** X29.  The sequence in which the live index is ranged over does not decide
    whether [GetCertificateBySerial] finds a certificate, and when the
    serial number belongs to at most one certificate of the index it does
    not decide which. *)
Theorem GetCertificateBySerial_any_order (w w1 w2 : World)
    (iter1 iter2 : list (string * loc)) (serialNumber : Z)
    (r1 r2 : option loc) :
  iter1 ≡ₚ map_to_list (certificatesByID (store w)) →
  iter2 ≡ₚ map_to_list (certificatesByID (store w)) →
  GetCertificateBySerial iter1 serialNumber w = Returns r1 w1 →
  GetCertificateBySerial iter2 serialNumber w = Returns r2 w2 →
  (r1 = None ↔ r2 = None)
  ∧ ((∀ id id' p p' c c',
        certificatesByID (store w) !! id = Some p →
        certificatesByID (store w) !! id' = Some p' →
        certificates (heap w) !! p = Some c →
        certificates (heap w) !! p' = Some c' →
        Certificate_SerialNumber c = serialNumber →
        Certificate_SerialNumber c' = serialNumber → p = p') →
     r1 = r2).
Proof.
  intros H1 H2. unfold GetCertificateBySerial.
  destruct (findCertificateBySerial iter1 _ _) as [f1|] eqn:Hf1; [|done].
  destruct (findCertificateBySerial iter2 _ _) as [f2|] eqn:Hf2; [|done].
  intros [= <- <-] [= <- <-].
  destruct f1 as [p1|], f2 as [p2|].
  - apply findCertificateBySerial_found in Hf1 as (id1 & c1 & Hin1 & Hc1 & Hs1).
    apply findCertificateBySerial_found in Hf2 as (id2 & c2 & Hin2 & Hc2 & Hs2).
    apply (range_entries iter1 _ _ _ H1) in Hin1.
    apply (range_entries iter2 _ _ _ H2) in Hin2.
    split; [done|]. intros Huniq. f_equal. by eapply Huniq.
  - apply findCertificateBySerial_found in Hf1 as (id1 & c1 & Hin1 & Hc1 & Hs1).
    apply (range_entries iter1 _ _ _ H1), (range_entries iter2 _ _ _ H2) in Hin1.
    by destruct (findCertificateBySerial_none _ _ _ Hf2 id1 p1 c1).
  - apply findCertificateBySerial_found in Hf2 as (id2 & c2 & Hin2 & Hc2 & Hs2).
    apply (range_entries iter2 _ _ _ H2), (range_entries iter1 _ _ _ H1) in Hin2.
    by destruct (findCertificateBySerial_none _ _ _ Hf1 id2 p2 c2).
  - done.
Qed.

(** X30.  A successful [AddCertificate] files the certificate under its ID, where
    [GetCertificateByID] finds it, leaves the other IDs, the revoked index
    and the heap as they are, and returns one more than the number of live
    certificates before. *)
Theorem AddCertificate_files (w w' : World) (cert : loc) (c : Certificate)
    (n : Z) :
  certificates (heap w) !! cert = Some c →
  AddCertificate cert w = Returns (Ok n) w' →
  heap w' = heap w
  ∧ GetCertificateByID (Certificate_ID c) w' = Returns (Some cert) w'
  ∧ (∀ id, id ≠ Certificate_ID c →
       GetCertificateByID id w'
       = Returns (certificatesByID (store w) !! id) w')
  ∧ n = (len (certificatesByID (store w)) + 1)%Z
  ∧ set_certificatesByID (certificatesByID (store w)) (store w') = store w.
Proof.
  intros Hc. unfold AddCertificate, GetCertificateByID. rewrite Hc. simpl.
  destruct (is_empty (Certificate_ID c)); [done|].
  destruct (certificatesByID (store w) !! Certificate_ID c) eqn:Hl; [done|].
  destruct (revokedCertificatesByID (store w) !! Certificate_ID c); [done|].
  intros [= <- <-]. simpl. rewrite lookup_insert_eq. split_and!; try done.
  - intros id Hid. by rewrite lookup_insert_ne.
  - unfold len. rewrite map_size_insert_None by done. lia.
  - by destruct w as [? []].
Qed.

End CertificatesMore.

(** ** More runs on concrete stores *)

Section MoreRuns.
Import Concrete.
#[local] Existing Instance Concrete.collaborators.
#[local] Existing Instance Concrete.statusMachine.

Lemma reachable_worldA : reachable worldA.
Proof.
  exists heap1, 0%nat. eapply rtc_l; [|apply rtc_refl].
  by apply (step_AddAccount 1 1%nat _ (Ok 1%Z)).
Defined.

Lemma reachable_worldO : reachable worldO.
Proof.
  exists heap1, 0%nat. eapply rtc_l; [|apply rtc_refl].
  by apply (step_AddOrder 1%nat _ (Ok 1%Z)).
Defined.

Lemma reachable_worldOO : reachable worldOO.
Proof.
  exists heap1, 0%nat.
  eapply rtc_l; [by apply (step_AddOrder 1%nat _ (Ok 1%Z) worldO)|].
  eapply rtc_l; [|apply rtc_refl].
  by apply (step_AddOrder 2%nat _ (Ok 2%Z)).
Defined.

Lemma later_worldO_worldOO : later_state worldO worldOO.
Proof.
  eapply rtc_l; [|apply rtc_refl]. by apply (step_AddOrder 2%nat _ (Ok 2%Z)).
Defined.

Lemma IsDomainBlocked_returns_witness :
  IsDomainBlocked "foo.example.com" worldB = Returns true worldB
  ∧ ∃ entry, entry ∈ blockListByDomain (store worldB)
             ∧ entry `prefix_of` reverse (Split "foo.example.com").
Proof.
  assert (IsDomainBlocked "foo.example.com" worldB = Returns true worldB)
    as Hrun by reflexivity.
  split; [exact Hrun|].
  exact (proj1 (proj2 (IsDomainBlocked_returns worldB worldB _ true Hrun))
           eq_refl).
Defined.

Lemma AddBlockedDomain_blocks_subdomains_witness :
  AddBlockedDomain "example.com" world1 = Returns (Ok ()) worldB
  ∧ IsDomainBlocked "foo.example.com" worldB = Returns true worldB.
Proof.
  assert (AddBlockedDomain "example.com" world1 = Returns (Ok ()) worldB)
    as Hadd by reflexivity.
  split; [exact Hadd|].
  exact (AddBlockedDomain_blocks_subdomains world1 worldB "example.com"
           "foo.example.com" Hadd
           (or_intror (ex_intro _ "foo" eq_refl))).
Defined.

Lemma IsDomainBlocked_verdict_persists_witness :
  later_state worldB worldBB
  ∧ IsDomainBlocked "foo.example.com" worldB = Returns true worldB
  ∧ IsDomainBlocked "foo.example.com" worldBB = Returns true worldBB.
Proof.
  assert (later_state worldB worldBB) as Hlater.
  { eapply rtc_l; [|apply rtc_refl].
    by apply (step_AddBlockedDomain "other.org" _ (Ok ())). }
  assert (IsDomainBlocked "foo.example.com" worldB = Returns true worldB)
    as Hrun by reflexivity.
  split; [exact Hlater|]. split; [exact Hrun|].
  exact (proj1 (IsDomainBlocked_verdict_persists worldB worldBB
                  "foo.example.com" Hlater) Hrun).
Defined.

Lemma reachable_lookups_allocated_witness :
  reachable worldA
  ∧ GetAccountByID "0" worldA = Returns (Some 1%nat) worldA
  ∧ is_Some (accounts (heap worldA) !! 1%nat).
Proof.
  split; [exact reachable_worldA|]. split; [reflexivity|].
  exact (proj1 (reachable_lookups_allocated worldA "0" 1%nat reachable_worldA)
           eq_refl).
Defined.

Lemma reachable_order_reads_panic_only_on_status_witness :
  reachable worldO ∧ UpdateReplacedOrder "c1" true worldO ≠ Panics.
Proof.
  split; [exact reachable_worldO|].
  exact (proj1 (reachable_order_reads_panic_only_on_status worldO
                  reachable_worldO) "c1" true).
Defined.

Lemma reachable_worldCC : reachable worldCC.
Proof.
  exists heap1, 0%nat.
  eapply rtc_l; [by apply (step_AddCertificate 1%nat _ (Ok 1%Z) worldC)|].
  eapply rtc_l; [|apply rtc_refl].
  by apply (step_AddCertificate 2%nat _ (Ok 2%Z)).
Defined.

Lemma id_indices_write_once_witness :
  later_state worldO worldOO
  ∧ ordersByID (store worldO) !! "o1" = Some 1%nat
  ∧ ordersByID (store worldOO) !! "o1" = Some 1%nat.
Proof.
  split; [exact later_worldO_worldOO|]. split; [reflexivity|].
  exact (proj1 (id_indices_write_once worldO worldOO "o1" 1%nat
                  later_worldO_worldOO) eq_refl).
Defined.

Lemma indices_keep_their_keys_witness :
  later_state worldO worldOO
  ∧ ordersByAccountID (store worldO) !! "0" = Some [1%nat]
  ∧ ∃ l', ordersByAccountID (store worldOO) !! "0" = Some l'
          ∧ [1%nat] `prefix_of` l'.
Proof.
  split; [exact later_worldO_worldOO|]. split; [reflexivity|].
  exact (proj2 (proj2 (proj2 (indices_keep_their_keys worldO worldOO "0"
                                later_worldO_worldOO))) [1%nat] eq_refl).
Defined.

Lemma reachable_order_indices_agree_witness :
  reachable worldOO ∧ order_indices_agree worldOO.
Proof.
  split; [exact reachable_worldOO|].
  exact (reachable_order_indices_agree worldOO reachable_worldOO).
Defined.

Lemma reachable_empty_id_absent_witness :
  reachable worldO ∧ GetOrderByID EmptyString worldO = Returns None worldO.
Proof.
  split; [exact reachable_worldO|].
  exact (proj1 (reachable_empty_id_absent worldO reachable_worldO)).
Defined.

Lemma revoked_id_blocks_live_witness :
  later_state worldR worldRC
  ∧ is_Some (revokedCertificatesByID (store worldR) !! "c1")
  ∧ GetCertificateByID "c1" worldRC = Returns None worldRC.
Proof.
  assert (later_state worldR worldRC) as Hlater.
  { eapply rtc_l; [|apply rtc_refl].
    by apply (step_AddCertificate 2%nat _ (Ok 1%Z)). }
  assert (is_Some (revokedCertificatesByID (store worldR) !! "c1")) as Hrev
    by (by exists 1%nat).
  split; [exact Hlater|]. split; [exact Hrev|].
  exact (proj2 (revoked_id_blocks_live worldR worldRC "c1" Hlater Hrev)).
Defined.

Lemma order_identity_is_stable_witness :
  later_state worldO worldOG
  ∧ orders (heap worldO) !! 1%nat
    = Some (mkOrder "o1" "0" "pending" false 1%nat (Some "ready"))
  ∧ ∃ o', orders (heap worldOG) !! 1%nat = Some o' ∧ Order_ID o' = "o1"
          ∧ Order_AccountID o' = "0".
Proof.
  assert (later_state worldO worldOG) as Hlater.
  { eapply rtc_l; [|apply rtc_refl].
    by apply (step_GetOrderByID "o1" _ (Some 1%nat)). }
  assert (orders (heap worldO) !! 1%nat
          = Some (mkOrder "o1" "0" "pending" false 1%nat (Some "ready")))
    as Ho by reflexivity.
  split; [exact Hlater|]. split; [exact Ho|].
  destruct (order_identity_is_stable worldO worldOG 1%nat _ Hlater Ho)
    as (o' & Ho' & Hid & Hacc & _).
  exists o'. split; [exact Ho'|]. split; [exact Hid | exact Hacc].
Defined.

Lemma AddAccount_more_fuel_witness :
  AddAccount 1 1%nat world1 ≠ OutOfFuel
  ∧ (1 ≤ 5)%nat
  ∧ AddAccount 5 1%nat world1 = Returns (Ok 1%Z) worldA.
Proof.
  assert (AddAccount 1 1%nat world1 ≠ OutOfFuel) as Hret by discriminate.
  assert (1 ≤ 5)%nat as Hle by lia.
  split; [exact Hret|]. split; [exact Hle|].
  exact (AddAccount_more_fuel 1 5 1%nat world1 Hret Hle).
Defined.

Lemma AddAccount_registers_witness :
  AddAccount 1 1%nat world1 = Returns (Ok 1%Z) worldA
  ∧ ∃ a, accounts (heap worldA) !! 1%nat = Some a
         ∧ GetAccountByID (Account_ID a) worldA = Returns (Some 1%nat) worldA
         ∧ GetAccountByKey (PtrJSONWebKey (Account_Key a)) worldA
           = Returns (Ok (Some 1%nat)) worldA.
Proof.
  assert (AddAccount 1 1%nat world1 = Returns (Ok 1%Z) worldA) as Hadd
    by reflexivity.
  split; [exact Hadd|].
  destruct (AddAccount_registers 1 1%nat world1 worldA 1%Z Hadd)
    as (a & keyID & Ha & _ & _ & _ & _ & Hget & HgetKey & _).
  exists a. split; [exact Ha|]. split; [exact Hget | exact HgetKey].
Defined.

Lemma AddAccount_failure_changes_nothing_witness :
  AddAccount 1 3%nat worldA = Returns (Err ErrAccountKeyExists) worldA3
  ∧ heap worldA3 = heap worldA
  ∧ set_accountRand (accountRand (store worldA)) (store worldA3)
    = store worldA.
Proof.
  assert (AddAccount 1 3%nat worldA = Returns (Err ErrAccountKeyExists) worldA3)
    as Hadd by reflexivity.
  split; [exact Hadd|].
  destruct (AddAccount_failure_changes_nothing 1 3%nat worldA worldA3 _ Hadd)
    as (Hheap & Hstore & _).
  split; [exact Hheap | exact Hstore].
Defined.

Lemma ChangeAccountKey_lookups_witness :
  accounts (heap worldAB) !! 1%nat = Some (mkAccount "0" (Some (jwk "Ka")))
  ∧ keyToID (PtrJSONWebKey (Some (jwk "Ka"))) = Ok "Ka"
  ∧ ChangeAccountKey 1%nat (Some (jwk "Kc")) worldAB = Returns (Ok ()) worldABc
  ∧ GetAccountByKey (PtrJSONWebKey (Some (jwk "Kc"))) worldABc
    = Returns (Ok (Some 1%nat)) worldABc
  ∧ GetAccountByKey (PtrJSONWebKey (Some (jwk "Ka"))) worldABc
    = Returns (Ok None) worldABc.
Proof.
  assert (accounts (heap worldAB) !! 1%nat
          = Some (mkAccount "0" (Some (jwk "Ka")))) as Ha by reflexivity.
  assert (keyToID (PtrJSONWebKey (Some (jwk "Ka"))) = Ok "Ka") as Hold
    by reflexivity.
  assert (ChangeAccountKey 1%nat (Some (jwk "Kc")) worldAB
          = Returns (Ok ()) worldABc) as Hrun by reflexivity.
  split; [exact Ha|]. split; [exact Hold|]. split; [exact Hrun|].
  destruct (ChangeAccountKey_lookups worldAB worldABc 1%nat (Some (jwk "Kc"))
              _ "Ka" (Ok ()) Ha Hold Hrun)
    as (newKeyID & Hnew & _ & HgetNew & _ & HgetOld & _).
  split; [exact HgetNew|]. apply HgetOld.
  intros Heq. rewrite <- Heq in Hnew. discriminate Hnew.
Defined.

Lemma UpdateAccountByID_contract_witness :
  accounts (heap worldAB) !! 2%nat = Some (mkAccount "1" (Some (jwk "Kb")))
  ∧ keyToID (PtrJSONWebKey (Some (jwk "Kb"))) = Ok "Kb"
  ∧ ∃ w', UpdateAccountByID "0" 2%nat worldAB = Returns (Ok ()) w'
      ∧ GetAccountByID "0" w' = Returns (Some 2%nat) w'
      ∧ accountsByKeyID (store w') !! "Ka" = Some 1%nat.
Proof.
  assert (accounts (heap worldAB) !! 2%nat
          = Some (mkAccount "1" (Some (jwk "Kb")))) as Ha by reflexivity.
  assert (keyToID (PtrJSONWebKey (Some (jwk "Kb"))) = Ok "Kb") as Hid
    by reflexivity.
  split; [exact Ha|]. split; [exact Hid|].
  destruct (proj2 (UpdateAccountByID_contract worldAB "0" 2%nat _ "Kb" Ha Hid)
              1%nat eq_refl)
    as (w' & Hrun & _ & Hget & _ & Hkeys & _).
  { by eexists. }
  exists w'. split; [exact Hrun|]. split; [exact Hget|].
  exact (eq_trans (Hkeys "Ka" ltac:(discriminate)) eq_refl).
Defined.

Lemma UpdateReplacedOrder_after_AddOrderByIssuedSerial_witness :
  orders (heap world1) !! 1%nat
    = Some (mkOrder "o1" "0" "pending" false 1%nat (Some "ready"))
  ∧ certificates (heap world1) !! 1%nat
    = Some (mkCertificate "c1" [] 7 EmptyString)
  ∧ AddOrderByIssuedSerial 1%nat world1 = Returns (Ok ()) worldS
  ∧ ∃ w2, UpdateReplacedOrder "c1" true worldS = Returns (Ok ()) w2
      ∧ orders (heap w2) !! 1%nat
        = Some (mkOrder "o1" "0" "pending" true 1%nat (Some "ready")).
Proof.
  assert (orders (heap world1) !! 1%nat
          = Some (mkOrder "o1" "0" "pending" false 1%nat (Some "ready")))
    as Ho by reflexivity.
  assert (certificates (heap world1) !! 1%nat
          = Some (mkCertificate "c1" [] 7 EmptyString)) as Hc by reflexivity.
  assert (AddOrderByIssuedSerial 1%nat world1 = Returns (Ok ()) worldS)
    as Hadd by reflexivity.
  split; [exact Ho|]. split; [exact Hc|]. split; [exact Hadd|].
  destruct (proj1 (UpdateReplacedOrder_after_AddOrderByIssuedSerial world1
                     worldS 1%nat _ _ true Ho Hc Hadd))
    as (w2 & Hrun & Hflag); [discriminate|].
  exists w2. split; [exact Hrun | exact Hflag].
Defined.

Lemma AddOrder_appends_witness :
  orders (heap worldO) !! 2%nat
    = Some (mkOrder "o2" "0" "pending" false 1%nat (Some "valid"))
  ∧ AddOrder 2%nat worldO = Returns (Ok 2%Z) worldOO
  ∧ ordersByAccountID (store worldOO) !! "0" = Some [1%nat; 2%nat].
Proof.
  assert (orders (heap worldO) !! 2%nat
          = Some (mkOrder "o2" "0" "pending" false 1%nat (Some "valid")))
    as Ho by reflexivity.
  assert (AddOrder 2%nat worldO = Returns (Ok 2%Z) worldOO) as Hadd
    by reflexivity.
  split; [exact Ho|]. split; [exact Hadd|].
  exact (proj1 (proj2 (AddOrder_appends worldO worldOO 2%nat _ 2%Z Ho Hadd))).
Defined.

Lemma AddAuthorization_contract_witness :
  authorizations (heap world1) !! 1%nat = Some (mkAuthorization "az1")
  ∧ "az1" ≠ EmptyString
  ∧ ∃ w', AddAuthorization 1%nat world1 = Returns (Ok 1%Z) w'
      ∧ GetAuthorizationByID "az1" w' = Returns (Some 1%nat) w'.
Proof.
  assert (authorizations (heap world1) !! 1%nat
          = Some (mkAuthorization "az1")) as Ha by reflexivity.
  assert ("az1" ≠ EmptyString) as Hne by discriminate.
  split; [exact Ha|]. split; [exact Hne|].
  destruct (proj2 (AddAuthorization_contract world1 1%nat _ Ha Hne))
    as (w' & Hrun & _ & Hget & _); [reflexivity|].
  exists w'. split; [exact Hrun | exact Hget].
Defined.

Lemma AddChallenge_contract_witness :
  challenges (heap world1) !! 1%nat = Some (mkChallenge "ch1")
  ∧ ∃ w', AddChallenge 1%nat world1 = Returns (Ok 1%Z) w'
      ∧ GetChallengeByID "ch1" w' = Returns (Some 1%nat) w'.
Proof.
  assert (challenges (heap world1) !! 1%nat = Some (mkChallenge "ch1"))
    as Hc by reflexivity.
  split; [exact Hc|].
  destruct (proj2 (proj2 (AddChallenge_contract world1 1%nat _ Hc)))
    as (w' & Hrun & _ & Hget & _); [discriminate | reflexivity |].
  exists w'. split; [exact Hrun | exact Hget].
Defined.

(** The live index of [worldCC], ranged over in its two possible
    sequences. *)
Lemma range_worldCC :
  [("c1", 1%nat); ("c2", 2%nat)] ≡ₚ map_to_list (certificatesByID (store worldCC))
  ∧ [("c2", 2%nat); ("c1", 1%nat)]
    ≡ₚ map_to_list (certificatesByID (store worldCC)).
Proof.
  assert (map_to_list (certificatesByID (store worldCC))
          ≡ₚ [("c1", 1%nat); ("c2", 2%nat)]) as Hm.
  { change (certificatesByID (store worldCC))
      with (<["c2":=2%nat]> (<["c1":=1%nat]> (∅ : gmap string loc))).
    rewrite map_to_list_insert by done.
    rewrite map_to_list_insert by done.
    rewrite map_to_list_empty. apply perm_swap. }
  split; [by symmetry|]. rewrite Hm. apply perm_swap.
Defined.

Lemma reachable_certificate_scans_return_witness :
  reachable worldCC
  ∧ [("c1", 1%nat); ("c2", 2%nat)] ≡ₚ map_to_list (certificatesByID (store worldCC))
  ∧ GetCertificateBySerial [("c1", 1%nat); ("c2", 2%nat)] 9 worldCC ≠ Panics.
Proof.
  split; [exact reachable_worldCC|]. split; [exact (proj1 range_worldCC)|].
  exact (proj1 (proj2 (reachable_certificate_scans_return worldCC
                         reachable_worldCC))
           _ 9%Z (proj1 range_worldCC)).
Defined.

Lemma GetCertificateBySerial_spec_witness :
  [("c1", 1%nat); ("c2", 2%nat)] ≡ₚ map_to_list (certificatesByID (store worldCC))
  ∧ GetCertificateBySerial [("c1", 1%nat); ("c2", 2%nat)] 8 worldCC
    = Returns (Some 2%nat) worldCC
  ∧ ∃ id c, certificatesByID (store worldCC) !! id = Some 2%nat
            ∧ certificates (heap worldCC) !! 2%nat = Some c
            ∧ Certificate_SerialNumber c = 8%Z.
Proof.
  assert (GetCertificateBySerial [("c1", 1%nat); ("c2", 2%nat)] 8 worldCC
          = Returns (Some 2%nat) worldCC) as Hrun by reflexivity.
  split; [exact (proj1 range_worldCC)|]. split; [exact Hrun|].
  exact (proj2 (GetCertificateBySerial_spec worldCC worldCC _ 8 (Some 2%nat)
                  (proj1 range_worldCC) Hrun)).
Defined.

Lemma GetRevokedCertificateBySerial_spec_witness :
  [("c1", 1%nat)] ≡ₚ map_to_list (revokedCertificatesByID (store worldR))
  ∧ GetRevokedCertificateBySerial [("c1", 1%nat)] 7 worldR
    = Returns (Some 1%nat) worldR
  ∧ ∃ id rc c, revokedCertificatesByID (store worldR) !! id = Some 1%nat
      ∧ revokedCertificates (heap worldR) !! 1%nat = Some rc
      ∧ certificates (heap worldR) !! RevokedCertificate_Certificate rc
        = Some c
      ∧ Certificate_SerialNumber c = 7%Z.
Proof.
  assert ([("c1", 1%nat)]
          ≡ₚ map_to_list (revokedCertificatesByID (store worldR))) as Hiter.
  { change (revokedCertificatesByID (store worldR))
      with (<["c1":=1%nat]> (∅ : gmap string loc)).
    rewrite map_to_list_insert by done. by rewrite map_to_list_empty. }
  assert (GetRevokedCertificateBySerial [("c1", 1%nat)] 7 worldR
          = Returns (Some 1%nat) worldR) as Hrun by reflexivity.
  split; [exact Hiter|]. split; [exact Hrun|].
  exact (proj2 (GetRevokedCertificateBySerial_spec worldR worldR _ 7
                  (Some 1%nat) Hiter Hrun)).
Defined.

Lemma SetARIResponse_spec_witness :
  [("c1", 1%nat); ("c2", 2%nat)] ≡ₚ map_to_list (certificatesByID (store worldCC))
  ∧ ∃ w', SetARIResponse [("c1", 1%nat); ("c2", 2%nat)] 8 "ari" worldCC
          = Returns (Ok ()) w'
      ∧ ∃ id cert c, certificatesByID (store worldCC) !! id = Some cert
          ∧ certificates (heap worldCC) !! cert = Some c
          ∧ Certificate_SerialNumber c = 8%Z
          ∧ certificates (heap w')
            = <[cert:=set_Certificate_ARIResponse "ari" c]>
                (certificates (heap worldCC)).
Proof.
  split; [exact (proj1 range_worldCC)|].
  exists (after (SetARIResponse [("c1", 1%nat); ("c2", 2%nat)] 8 "ari" worldCC)).
  assert (SetARIResponse [("c1", 1%nat); ("c2", 2%nat)] 8 "ari" worldCC
          = Returns (Ok ())
              (after (SetARIResponse [("c1", 1%nat); ("c2", 2%nat)] 8 "ari"
                        worldCC))) as Hrun by reflexivity.
  split; [exact Hrun|].
  destruct (SetARIResponse_spec worldCC _ _ 8 "ari" (Ok ())
              (proj1 range_worldCC) Hrun)
    as (id & cert & c & Hl & Hc & Hs & _ & Hcs & _).
  exists id, cert, c. split; [exact Hl|]. split; [exact Hc|].
  split; [exact Hs | exact Hcs].
Defined.

Lemma GetCertificateBySerial_any_order_witness :
  [("c1", 1%nat); ("c2", 2%nat)] ≡ₚ map_to_list (certificatesByID (store worldCC))
  ∧ [("c2", 2%nat); ("c1", 1%nat)]
    ≡ₚ map_to_list (certificatesByID (store worldCC))
  ∧ GetCertificateBySerial [("c1", 1%nat); ("c2", 2%nat)] 8 worldCC
    = Returns (Some 2%nat) worldCC
  ∧ GetCertificateBySerial [("c2", 2%nat); ("c1", 1%nat)] 8 worldCC
    = Returns (Some 2%nat) worldCC
  ∧ (Some 2%nat = None ↔ Some 2%nat = (None : option loc)).
Proof.
  assert (GetCertificateBySerial [("c1", 1%nat); ("c2", 2%nat)] 8 worldCC
          = Returns (Some 2%nat) worldCC) as H1 by reflexivity.
  assert (GetCertificateBySerial [("c2", 2%nat); ("c1", 1%nat)] 8 worldCC
          = Returns (Some 2%nat) worldCC) as H2 by reflexivity.
  split; [exact (proj1 range_worldCC)|]. split; [exact (proj2 range_worldCC)|].
  split; [exact H1|]. split; [exact H2|].
  exact (proj1 (GetCertificateBySerial_any_order worldCC worldCC worldCC _ _ 8
                  _ _ (proj1 range_worldCC) (proj2 range_worldCC) H1 H2)).
Defined.

Lemma AddCertificate_files_witness :
  certificates (heap world1) !! 1%nat
    = Some (mkCertificate "c1" [] 7 EmptyString)
  ∧ AddCertificate 1%nat world1 = Returns (Ok 1%Z) worldC
  ∧ GetCertificateByID "c1" worldC = Returns (Some 1%nat) worldC.
Proof.
  assert (certificates (heap world1) !! 1%nat
          = Some (mkCertificate "c1" [] 7 EmptyString)) as Hc by reflexivity.
  assert (AddCertificate 1%nat world1 = Returns (Ok 1%Z) worldC) as Hadd
    by reflexivity.
  split; [exact Hc|]. split; [exact Hadd|].
  exact (proj1 (proj2 (AddCertificate_files world1 worldC 1%nat _ 1%Z Hc Hadd))).
Defined.

End MoreRuns.
